(** * Game of Life (game_of_life.c): configuration parsing and board update

    A shallow embedding of [checkParams], [checkConfigFile], [fillBoard],
    [updateBoard], [printBoard] and [run], together with the properties
    proved of them.

    Platform assumptions (x86-64 Linux, the platform the program targets
    through <unistd.h>): [char] is a signed 8-bit type, [int] has 32 bits,
    [size_t] has 64 bits, and [calloc] succeeds.  Signed overflow of an
    [int] counter is undefined behaviour in C; the model reports it as the
    outcome [Undefined] instead of giving it a value. *)

From Stdlib Require Import ZArith Lia.
From Stdlib.Strings Require Import Byte.
From stdpp Require Import base option list numbers strings.

Local Open Scope Z_scope.

(** ** C integer types and character constants *)

Module C.

Definition INT_MAX : Z := 2147483647.
Definition EOF : Z := -1.

  (** Conversion of an [int] to the signed 8-bit [char]. *)
Definition to_char (x : Z) : Z :=
    let y := x mod 256 in if 128 <=? y then y - 256 else y.

  (** Conversion of an [int] to [uint8_t]. *)
Definition to_uint8 (x : Z) : Z := x mod 256.

  (** Conversion of an [int] to the unsigned 64-bit [size_t]. *)
Definition to_size_t (x : Z) : Z := x mod 2 ^ 64.

  (** The character constants of the source: '\n', '.', '#'. *)
Definition NEWLINE : Z := 10.
Definition DOT : Z := 46.
Definition HASH : Z := 35.

End C.

Import C.

(** ** The stdio stream

    A stream opened for reading is its whole contents (for [rewind]), the
    bytes not yet read, and the end-of-file indicator. *)

Record FILE := mkFILE {
  contents : list byte;
  unread : list byte;
  eof_flag : bool
}.

Definition fopen (data : list byte) : FILE :=
  {| contents := data; unread := data; eof_flag := false |}.

Definition feof (f : FILE) : bool := eof_flag f.

(** [fgetc] returns the next byte as an [unsigned char] converted to [int],
    or [EOF] at the end of the stream, where it sets the indicator. *)
Definition fgetc (f : FILE) : Z * FILE :=
  match unread f with
  | [] => (EOF, {| contents := contents f; unread := []; eof_flag := true |})
  | b :: rest =>
      (Z.of_N (Byte.to_N b),
       {| contents := contents f; unread := rest; eof_flag := eof_flag f |})
  end.

Definition rewind (f : FILE) : FILE :=
  {| contents := contents f; unread := contents f; eof_flag := false |}.

(** ** Outcomes

    The program returns [OK] or [ERROR]; the errors are told apart by the
    message printed before [ERROR] is returned.  [EmptyInput] belongs to the
    specification's taxonomy of errors; no path of the program reports it. *)

Inductive ConfigError :=
| FileNotFound
| InconsistentColumnCount
| InvalidCharacter (c : Z)
| EmptyInput.

Inductive Outcome (A : Type) :=
| Return_OK (a : A)
| Return_ERROR (e : ConfigError)
| Undefined
| OutOfFuel.

Arguments Return_OK {A} a.
Arguments Return_ERROR {A} e.
Arguments Undefined {A}.
Arguments OutOfFuel {A}.

(** ** checkConfigFile *)

Record Counters := mkCounters {
  last_column_count : Z;
  current_column_count : Z;
  row_count : Z
}.

Inductive Step :=
| Continue (st : Counters)
| Break (st : Counters)
| Fail (e : ConfigError)
| Overflow.

(** The body of the [while] loop after [fgetc] has returned [ch]. *)
Definition check_char (ch : Z) (st : Counters) : Step :=
  let current_char := to_char ch in
  let col := current_column_count st + 1 in
  if INT_MAX <? col then Overflow
  else if current_char =? NEWLINE then
    let last :=
      if last_column_count st =? 0 then col else last_column_count st in
    if negb (last =? col) then Fail InconsistentColumnCount
    else if INT_MAX <? row_count st + 1 then Overflow
    else Continue {| last_column_count := last;
                     current_column_count := 0;
                     row_count := row_count st + 1 |}
  else if current_char =? EOF then
    if negb (last_column_count st =? col) then Fail InconsistentColumnCount
    else Break {| last_column_count := last_column_count st;
                  current_column_count := col;
                  row_count := row_count st |}
  else if negb (current_char =? DOT) && negb (current_char =? HASH) then
    Fail (InvalidCharacter current_char)
  else Continue {| last_column_count := last_column_count st;
                   current_column_count := col;
                   row_count := row_count st |}.

(** [while (!feof( *config_file)) { ... }] *)
Fixpoint check_loop (fuel : nat) (f : FILE) (st : Counters)
  : Outcome (FILE * Counters) :=
  match fuel with
  | O => OutOfFuel
  | S fuel' =>
      if feof f then Return_OK (f, st)
      else
        let '(ch, f') := fgetc f in
        match check_char ch st with
        | Continue st' => check_loop fuel' f' st'
        | Break st' => Return_OK (f', st')
        | Fail e => Return_ERROR e
        | Overflow => Undefined
        end
  end.

(** The file system is the contents of the file at [file_path], if any.
    On [OK] the stream and the 8-bit [( *board_height, *board_width)] are
    returned.  Every iteration but the last reads one byte, so
    [length data + 1] iterations are enough. *)
Definition checkConfigFile (file : option (list byte))
  : Outcome (FILE * (Z * Z)) :=
  match file with
  | None => Return_ERROR FileNotFound
  | Some data =>
      match check_loop (S (length data)) (fopen data)
              {| last_column_count := 0;
                 current_column_count := 0;
                 row_count := 0 |} with
      | Return_OK (f, st) =>
          if INT_MAX <? row_count st + 1 then Undefined
          else
            let board_width := to_uint8 (last_column_count st - 1) in
            let board_height := to_uint8 (row_count st + 1) in
            Return_OK (f, (board_height, board_width))
      | Return_ERROR e => Return_ERROR e
      | Undefined => Undefined
      | OutOfFuel => OutOfFuel
      end
  end.

(** ** The board *)

Record Cell := mkCell {
  current_value : Z;
  new_value : Z
}.

Abbreviation Board := (list (list Cell)).

(** [board[r][c]], [None] outside the allocated rows and columns. *)
Definition cell_at (board : Board) (r c : Z) : option Cell :=
  if (r <? 0) || (c <? 0) then None
  else row ← board !! Z.to_nat r; row !! Z.to_nat c.

(** [board[r][c] = x], [None] outside the allocated rows and columns. *)
Definition store_cell (board : Board) (r c : Z) (x : Cell) : option Board :=
  if (r <? 0) || (c <? 0) then None
  else
    row ← board !! Z.to_nat r;
    _ ← row !! Z.to_nat c;
    Some (<[Z.to_nat r := <[Z.to_nat c := x]> row]> board).

Definition set_current_value (board : Board) (r c v : Z) : option Board :=
  x ← cell_at board r c;
  store_cell board r c {| current_value := v; new_value := new_value x |}.

Definition set_new_value (board : Board) (r c v : Z) : option Board :=
  x ← cell_at board r c;
  store_cell board r c {| current_value := current_value x; new_value := v |}.

(** [for (i = 0; i < bound; i++) body], the state threaded through an
    [option] that is [None] when the body leaves the allocated board. *)
Fixpoint iterate_from {S : Type} (n : nat) (i : Z)
    (body : Z → S → option S) (s : S) : option S :=
  match n with
  | O => Some s
  | Datatypes.S n' => s' ← body i s; iterate_from n' (i + 1) body s'
  end.

Definition for_loop {S : Type} (bound : Z) (body : Z → S → option S) (s : S)
  : option S :=
  iterate_from (Z.to_nat bound) 0 body s.

(** ** fillBoard *)

(** [calloc]: a zeroed board of [board_height] rows of [board_width] cells. *)
Definition calloc_board (board_height board_width : Z) : Board :=
  replicate (Z.to_nat board_height)
    (replicate (Z.to_nat board_width) {| current_value := 0; new_value := 0 |}).

Definition fill_cell (row column : Z) (s : FILE * Board)
  : option (FILE * Board) :=
  let '(ch, f) := fgetc s.1 in
  let current_char := to_char ch in
  board ← set_current_value s.2 row column current_char;
  board ← set_new_value board row column current_char;
  Some (f, board).

Definition fill_row (board_width : Z) (row : Z) (s : FILE * Board)
  : option (FILE * Board) :=
  s ← for_loop board_width (fill_cell row) s;
  let '(_, f) := fgetc s.1 in
  Some (f, s.2).

(** The counters are [uint8_t] and stay below the 8-bit bounds
    [board_height] and [board_width], so they never wrap. *)
Definition fillBoard (config_file : FILE) (board_height board_width : Z)
  : option (FILE * Board) :=
  for_loop board_height (fill_row board_width)
    (rewind config_file, calloc_board board_height board_width).

(** ** updateBoard *)

Definition neighbour : list (Z * Z) :=
  [(-1, -1); (-1, 0); (-1, 1); (0, -1); (0, 1); (1, -1); (1, 0); (1, 1)].

(** One round of the loop over the 8 neighbours; the sums are computed in
    [size_t], so a negative position wraps around to a huge one. *)
Definition count_neighbour (board : Board) (board_height board_width : Z)
    (row column : Z) (neighbour_count : Z) (n : Z * Z) : option Z :=
  let y := to_size_t (row + n.1) in
  let x := to_size_t (column + n.2) in
  if (to_size_t board_height <=? y) || (to_size_t board_width <=? x)
  then Some neighbour_count
  else
    cell ← cell_at board y x;
    if current_value cell =? HASH then Some (neighbour_count + 1)
    else Some neighbour_count.

Definition count_neighbours (board : Board) (board_height board_width : Z)
    (row column : Z) : option Z :=
  foldl (λ acc n,
           neighbour_count ← acc;
           count_neighbour board board_height board_width row column
             neighbour_count n)
        (Some 0) neighbour.

Definition update_cell (board_height board_width : Z) (row column : Z)
    (board : Board) : option Board :=
  neighbour_count ← count_neighbours board board_height board_width row column;
  cell ← cell_at board row column;
  if (current_value cell =? HASH)
     && ((neighbour_count =? 2) || (neighbour_count =? 3))
  then set_new_value board row column HASH
  else if (current_value cell =? DOT) && (neighbour_count =? 3)
  then set_new_value board row column HASH
  else set_new_value board row column DOT.

Definition persist_cell (row column : Z) (board : Board) : option Board :=
  cell ← cell_at board row column;
  set_current_value board row column (new_value cell).

Definition updateBoard (board : Board) (board_height board_width : Z)
  : option Board :=
  board ← for_loop (to_size_t board_height)
            (λ row, for_loop (to_size_t board_width)
                      (update_cell board_height board_width row))
            board;
  for_loop (to_size_t board_height)
    (λ row, for_loop (to_size_t board_width) (persist_cell row))
    board.

(** ** run, up to the simulation loop

    [checkConfigFile] followed by [fillBoard]; the result is the board with
    its dimensions.  [None] from [fillBoard] is an access outside the
    allocated board. *)
Definition run_load (file : option (list byte)) : Outcome (Z * Z * Board) :=
  match checkConfigFile file with
  | Return_OK (config_file, (board_height, board_width)) =>
      match fillBoard config_file board_height board_width with
      | Some (_, board) => Return_OK (board_height, board_width, board)
      | None => Undefined
      end
  | Return_ERROR e => Return_ERROR e
  | Undefined => Undefined
  | OutOfFuel => OutOfFuel
  end.

(** [n] rounds of the simulation loop of [run] (without the printing). *)
Fixpoint steps (n : nat) (board : Board) (board_height board_width : Z)
  : option Board :=
  match n with
  | O => Some board
  | S n' =>
      board' ← updateBoard board board_height board_width;
      steps n' board' board_height board_width
  end.

(** ** Texts and the boards they describe *)

Definition nl : byte := x0a.

Definition char_of_byte (b : byte) : Z := to_char (Z.of_N (Byte.to_N b)).

Definition is_marker (b : byte) : Prop := b = "."%byte ∨ b = "#"%byte.

(** Lines each followed by the line terminator. *)
Definition terminated (lines : list (list byte)) : list byte :=
  concat (map (λ l, l ++ [nl]) lines).

(** Lines separated by the line terminator, the last one unterminated. *)
Fixpoint separated (lines : list (list byte)) : list byte :=
  match lines with
  | [] => []
  | [l] => l
  | l :: ls => l ++ nl :: separated ls
  end.

(** The board whose cells hold the characters of [rows], in both fields. *)
Definition board_of_rows (rows : list (list byte)) : Board :=
  (λ row : list byte,
     (λ b, {| current_value := char_of_byte b;
              new_value := char_of_byte b |}) <$> row) <$> rows.

(** A grid of [h] rows of [w] cells. *)
Definition well_shaped (board : Board) (h w : Z) : Prop :=
  0 ≤ h ∧ 0 ≤ w ∧ length board = Z.to_nat h
  ∧ Forall (λ row, length row = Z.to_nat w) board.

(** Every cell holds one of the two markers. *)
Definition valid_board (board : Board) : Prop :=
  Forall (Forall (λ x, current_value x = DOT ∨ current_value x = HASH)) board.

(** ** The rule as the specification words it

    A cell is alive when it holds the alive-marker.  The live neighbours of
    [(r, c)] are the alive cells at the 8 offsets that land inside
    [[0, h) × [0, w)]; a position outside is not counted. *)

Definition current_at (board : Board) (r c : Z) : Z :=
  match cell_at board r c with
  | Some x => current_value x
  | None => 0
  end.

Definition new_at (board : Board) (r c : Z) : Z :=
  match cell_at board r c with
  | Some x => new_value x
  | None => 0
  end.

Definition spec_offsets : list (Z * Z) :=
  [(-1, -1); (-1, 0); (-1, 1); (0, -1); (0, 1); (1, -1); (1, 0); (1, 1)].

Definition spec_inside (h w r c : Z) : bool :=
  (0 <=? r) && (r <? h) && (0 <=? c) && (c <? w).

Definition spec_alive (board : Board) (r c : Z) : bool :=
  current_at board r c =? HASH.

Definition spec_counted (board : Board) (h w r c : Z) (o : Z * Z) : bool :=
  spec_inside h w (r + o.1) (c + o.2) && spec_alive board (r + o.1) (c + o.2).

Definition spec_count (board : Board) (h w r c : Z) (os : list (Z * Z)) : Z :=
  foldr (λ o n, if spec_counted board h w r c o then n + 1 else n) 0 os.

Definition spec_live_neighbours (board : Board) (h w r c : Z) : Z :=
  spec_count board h w r c spec_offsets.

(** Live with 2 or 3 live neighbours: alive; dead with exactly 3: alive;
    every other case: dead. *)
Definition spec_next_alive (board : Board) (h w r c : Z) : bool :=
  let n := spec_live_neighbours board h w r c in
  if spec_alive board r c then (n =? 2) || (n =? 3) else n =? 3.

Definition spec_next_value (board : Board) (h w r c : Z) : Z :=
  if spec_next_alive board h w r c then HASH else DOT.

(** The number of offsets that land inside the board. *)
Definition spec_candidates (h w r c : Z) : Z :=
  foldr (λ o n, if spec_inside h w (r + o.1) (c + o.2) then n + 1 else n)
        0 spec_offsets.

(** The three assignments of [updateBoard] as one value. *)
Definition next_value (current neighbour_count : Z) : Z :=
  if (current =? HASH) && ((neighbour_count =? 2) || (neighbour_count =? 3))
  then HASH
  else if (current =? DOT) && (neighbour_count =? 3) then HASH
  else DOT.

(** ** Invariants of the loops of [updateBoard]

    [computed_before i j r c]: cell [(r, c)] comes before [(i, j)] in the
    row-major order of the two nested loops. *)

Definition computed_before (i j r c : Z) : Prop := r < i ∨ (r = i ∧ c < j).

(** First pair of loops: the current values are those of [board0], and the
    cells already visited hold their next value in [new_value]. *)
Definition update_inv (board0 : Board) (h w i j : Z) (board : Board) : Prop :=
  well_shaped board h w
  ∧ ∀ r c, 0 ≤ r < h → 0 ≤ c < w →
      current_at board r c = current_at board0 r c
      ∧ (computed_before i j r c →
         new_at board r c
         = next_value (current_at board0 r c)
                      (spec_live_neighbours board0 h w r c)).

(** Second pair of loops: the new values are those of [board1], and the
    cells already visited hold them in [current_value] too. *)
Definition persist_inv (board1 : Board) (h w i j : Z) (board : Board) : Prop :=
  well_shaped board h w
  ∧ ∀ r c, 0 ≤ r < h → 0 ≤ c < w →
      new_at board r c = new_at board1 r c
      ∧ (computed_before i j r c → current_at board r c = new_at board1 r c).

(** ** The loop of [checkConfigFile] by recursion on the unread bytes

    [scan bytes st] is what the loop does from counters [st] when [bytes]
    are still to be read; [check_loop_scan] below shows that [check_loop]
    agrees with it. *)

Fixpoint scan (bytes : list byte) (st : Counters) : Outcome Counters :=
  match bytes with
  | [] =>
      match check_char EOF st with
      | Continue _ => OutOfFuel
      | Break st' => Return_OK st'
      | Fail e => Return_ERROR e
      | Overflow => Undefined
      end
  | b :: rest =>
      match check_char (Z.of_N (Byte.to_N b)) st with
      | Continue st' => scan rest st'
      | Break st' => Return_OK st'
      | Fail e => Return_ERROR e
      | Overflow => Undefined
      end
  end.

Definition initial_counters : Counters :=
  {| last_column_count := 0; current_column_count := 0; row_count := 0 |}.

(** What follows a line in [separated]: nothing after the last one. *)
Definition sep_tail (lines : list (list byte)) : list byte :=
  match lines with
  | [] => []
  | _ => nl :: separated lines
  end.

(** The bytes the scan accepts: the two markers and the terminator. *)
Definition is_text_byte (b : byte) : Prop := is_marker b ∨ b = nl.

(** The first line of a text and the number of its line terminators. *)
Fixpoint first_line (bytes : list byte) : list byte :=
  match bytes with
  | [] => []
  | b :: rest => if Byte.eqb b nl then [] else b :: first_line rest
  end.

Fixpoint count_terminators (bytes : list byte) : Z :=
  match bytes with
  | [] => 0
  | b :: rest =>
      if Byte.eqb b nl then 1 + count_terminators rest
      else count_terminators rest
  end.

(** The lines of a text: what stands between the terminators.  A text
    always has one line more than it has terminators. *)
Fixpoint split_lines (bytes : list byte) : list (list byte) :=
  match bytes with
  | [] => [[]]
  | b :: rest =>
      if Byte.eqb b nl then [] :: split_lines rest
      else match split_lines rest with
           | [] => [[b]]
           | l :: ls => (b :: l) :: ls
           end
  end.

(** ** Invariants of the loops of [fillBoard]

    Before row [i]: the stream stands at the start of line [i] and the
    rows above hold the characters of their lines. *)
Definition fill_row_inv (lines : list (list byte)) (h w i : Z)
    (s : FILE * Board) : Prop :=
  well_shaped s.2 h w
  ∧ unread s.1 = separated (drop (Z.to_nat i) lines)
  ∧ ∀ r c, 0 ≤ r < h → 0 ≤ c < w → r < i →
      cell_at s.2 r c = cell_at (board_of_rows lines) r c.

(** Before column [j] of row [i]: the stream stands at character [j] of
    line [i]. *)
Definition fill_cell_inv (lines : list (list byte)) (h w i j : Z)
    (s : FILE * Board) : Prop :=
  well_shaped s.2 h w
  ∧ (∃ line rest, drop (Z.to_nat i) lines = line :: rest
       ∧ unread s.1 = drop (Z.to_nat j) line ++ sep_tail rest)
  ∧ ∀ r c, 0 ≤ r < h → 0 ≤ c < w → computed_before i j r c →
      cell_at s.2 r c = cell_at (board_of_rows lines) r c.

(** The character [fillBoard] finds at offset [k] of the file: the byte
    there converted to [char], or [EOF] converted to [char] past the end. *)
Definition file_char (data : list byte) (k : Z) : Z :=
  match data !! Z.to_nat k with
  | Some b => char_of_byte b
  | None => to_char EOF
  end.

(** [fillBoard] on any file: before cell [(i, j)] the stream stands at
    offset [i * (w + 1) + j] and the cells before hold the characters at
    their offsets. *)
Definition fill_pos_inv (data : list byte) (h w i j : Z)
    (s : FILE * Board) : Prop :=
  well_shaped s.2 h w
  ∧ contents s.1 = data
  ∧ unread s.1 = drop (Z.to_nat (i * (w + 1) + j)) data
  ∧ ∀ r c, 0 ≤ r < h → 0 ≤ c < w → computed_before i j r c →
      cell_at s.2 r c
      = Some {| current_value := file_char data (r * (w + 1) + c);
                new_value := file_char data (r * (w + 1) + c) |}.

(** The board of [h] rows of [w] dead cells. *)
Definition dead_board (h w : Z) : Board :=
  replicate (Z.to_nat h)
    (replicate (Z.to_nat w) {| current_value := DOT; new_value := DOT |}).

(** ** Example texts and boards *)

Definition dot : byte := "."%byte.
Definition hash : byte := "#"%byte.

Definition blinker_vertical : list (list byte) :=
  [[dot; hash; dot]; [dot; hash; dot]; [dot; hash; dot]].

Definition blinker_horizontal : list (list byte) :=
  [[dot; dot; dot]; [hash; hash; hash]; [dot; dot; dot]].

Definition block : list (list byte) := [[hash; hash]; [hash; hash]].

(** Three lines of 384 dead-markers, separated by the terminator. *)
Definition wide_text : list byte :=
  separated [repeat dot 384; repeat dot 384; repeat dot 384].

(** ** Standard output, checkParams, printBoard and run

    The output of the program is the sequence of its [printf] calls, each
    with the format string of the source and its arguments. *)

Inductive Arg :=
| ArgString (s : string)
| ArgInt (n : Z)
| ArgChar (c : Z).

Record Printf := printf {
  format : string;
  arguments : list Arg
}.

(** The line feed and the double quote of the format strings. *)
Definition LF : string := String (Ascii.ascii_of_nat 10) EmptyString.
Definition QUOTE : string := String (Ascii.ascii_of_nat 34) EmptyString.

Definition USAGE_PROMPT : string := "Usage: ./gol [-f <filename>]" +:+ LF.
Definition INFO_DEFAULT_FILE : string :=
  "-> Info: Using standard configuration file " +:+ QUOTE +:+ "%s"
  +:+ QUOTE +:+ LF.
Definition ERROR_NO_FILE : string :=
  "-> Error: Configuration file " +:+ QUOTE +:+ "%s" +:+ QUOTE
  +:+ " does not exist!" +:+ LF.
Definition DEFAULT_CONFIG_PATH : string := "default.txt".

(** [checkParams]: [argc] is the length of [argv]; the result is what was
    printed and, on [OK], the file path. *)
Definition checkParams (argv : list string) : list Printf * option string :=
  let argc := Z.of_nat (length argv) in
  if argc =? 1 then
    ([printf INFO_DEFAULT_FILE [ArgString DEFAULT_CONFIG_PATH]],
     Some DEFAULT_CONFIG_PATH)
  else if argc =? 3 then
    if String.eqb (nth 1 argv EmptyString) "-f" then
      ([printf ("-> Using configuration file: %s" +:+ LF)
          [ArgString (nth 2 argv EmptyString)]],
       Some (nth 2 argv EmptyString))
    else ([printf USAGE_PROMPT []], None)
  else ([printf USAGE_PROMPT []], None).

(** [for (uint8_t i = 0; i < bound; i++) body] with an [int] bound: above
    255 the counter wraps to 0 before it reaches the bound and the loop
    never ends, which gives no result either. *)
Definition uint8_for {S : Type} (bound : Z) (body : Z → S → option S) (s : S)
  : option S :=
  if 255 <? bound then None else for_loop bound body s.

Definition print_border (board_width : Z) (out : list Printf)
  : option (list Printf) :=
  uint8_for board_width (λ _ out, Some (out ++ [printf "═" []])) out.

Definition print_cell (board : Board) (row column : Z) (out : list Printf)
  : option (list Printf) :=
  cell ← cell_at board row column;
  let out :=
    if current_value cell =? HASH then out ++ [printf "■" []] else out in
  let out :=
    if current_value cell =? DOT then out ++ [printf "·" []] else out in
  Some out.

Definition print_row (board : Board) (board_width : Z) (row : Z)
    (out : list Printf) : option (list Printf) :=
  out ← uint8_for board_width (print_cell board row)
          (out ++ [printf "║" []]);
  Some (out ++ [printf ("║" +:+ LF) []]).

Definition printBoard (board : Board) (board_height board_width : Z)
    (out : list Printf) : option (list Printf) :=
  out ← print_border board_width out;
  out ← uint8_for board_height (print_row board board_width)
          (out ++ [printf ("╗" +:+ LF) []]);
  out ← print_border board_width (out ++ [printf "╚" []]);
  Some (out ++ [printf ("╝" +:+ LF) []]).

(** What [printBoard] prints for a row and for a board, in closed form. *)
Definition glyphs (cell : Cell) : list Printf :=
  (if current_value cell =? HASH then [printf "■" []] else [])
  ++ (if current_value cell =? DOT then [printf "·" []] else []).

Definition render_row (row : list Cell) : list Printf :=
  [printf "║" []] ++ concat (glyphs <$> row) ++ [printf ("║" +:+ LF) []].

Definition render (board : Board) (board_width : Z) : list Printf :=
  replicate (Z.to_nat board_width) (printf "═" [])
  ++ [printf ("╗" +:+ LF) []]
  ++ concat (render_row <$> board)
  ++ [printf "╚" []]
  ++ replicate (Z.to_nat board_width) (printf "═" [])
  ++ [printf ("╝" +:+ LF) []].

(** The one [printf] of [checkConfigFile] before each of its returns. *)
Definition checkConfigFile_output (file_path : string)
    (result : Outcome (FILE * (Z * Z))) : list Printf :=
  match result with
  | Return_OK (_, (board_height, board_width)) =>
      [printf ("-> Info: Rows = %d, Columns = %d" +:+ LF)
         [ArgInt board_height; ArgInt board_width]]
  | Return_ERROR FileNotFound =>
      [printf ERROR_NO_FILE [ArgString file_path]]
  | Return_ERROR InconsistentColumnCount =>
      [printf ("-> Error: Inconsistent column count detected!" +:+ LF) []]
  | Return_ERROR (InvalidCharacter c) =>
      [printf ("-> Error: Invalid char " +:+ QUOTE +:+ "%c" +:+ QUOTE
               +:+ " detected!" +:+ LF) [ArgChar c]]
  | _ => []
  end.

(** [run]: either it has returned [ERROR], or it is in its endless loop
    with a board, its dimensions and the step counter, or it has left the
    defined behaviour of C. *)
Inductive RunState :=
| Returned_ERROR (out : list Printf)
| Simulating (out : list Printf) (board : Board)
    (board_height board_width step : Z)
| Run_undefined.

(** One round of [while (1)]: print the step and the board, update the
    board, count the step ([size_t]); the sleep is left out. *)
Definition run_round (st : RunState) : RunState :=
  match st with
  | Simulating out board board_height board_width step =>
      let out := out ++ [printf ("Step: %zu" +:+ LF +:+ "╔") [ArgInt step]] in
      match printBoard board board_height board_width out with
      | None => Run_undefined
      | Some out =>
          match updateBoard board board_height board_width with
          | None => Run_undefined
          | Some board =>
              Simulating out board board_height board_width
                (to_size_t (step + 1))
          end
      end
  | _ => st
  end.

(** [run] up to the end of [rounds] rounds of its loop.  The file system
    gives the contents of the file at a path, if there is one. *)
Definition run (argv : list string) (fs : string → option (list byte))
    (rounds : nat) : RunState :=
  match checkParams argv with
  | (out, None) => Returned_ERROR out
  | (out, Some file_path) =>
      let checked := checkConfigFile (fs file_path) in
      let out := out ++ checkConfigFile_output file_path checked in
      match checked with
      | Return_OK (config_file, (board_height, board_width)) =>
          match fillBoard config_file board_height board_width with
          | Some (_, board) =>
              Nat.iter rounds run_round
                (Simulating
                   (out ++ [printf (LF +:+ "============ GOL - Game Of Life ============" +:+ LF) []])
                   board board_height board_width 0)
          | None => Run_undefined
          end
      | Return_ERROR _ => Returned_ERROR out
      | Undefined | OutOfFuel => Run_undefined
      end
  end.

(** ** Loops and array accesses *)

Section Loops.
Context {S : Type}.
Variable P : Z → S → Prop.
Variable body : Z → S → option S.

Lemma iterate_from_inv n i s :
    P i s →
    (∀ j t, i ≤ j < i + Z.of_nat n → P j t →
            ∃ t', body j t = Some t' ∧ P (j + 1) t') →
    ∃ s', iterate_from n i body s = Some s' ∧ P (i + Z.of_nat n) s'.
  Proof.
    revert i s. induction n as [|n IH]; intros i s Hs Hbody.
    - exists s. split; [done|]. replace (i + Z.of_nat 0) with i by lia. done.
    - destruct (Hbody i s) as (t & Ht & HP); [lia|done|].
      destruct (IH (i + 1) t) as (s' & Hs' & HP'); [done| |].
      + intros j u Hj Hu. apply Hbody; [lia|done].
      + exists s'. split.
        * simpl. rewrite Ht. simpl. done.
        * replace (i + Z.of_nat (Datatypes.S n)) with (i + 1 + Z.of_nat n) by lia.
          done.
  Qed.

Lemma for_loop_inv bound s :
    0 ≤ bound →
    P 0 s →
    (∀ j t, 0 ≤ j < bound → P j t →
            ∃ t', body j t = Some t' ∧ P (j + 1) t') →
    ∃ s', for_loop bound body s = Some s' ∧ P bound s'.
  Proof.
    intros Hb Hs Hbody. unfold for_loop.
    destruct (iterate_from_inv (Z.to_nat bound) 0 s) as (s' & Hs' & HP).
    - done.
    - intros j t Hj. apply Hbody. lia.
    - replace (0 + Z.of_nat (Z.to_nat bound)) with bound in HP by lia.
      by exists s'.
  Qed.
End Loops.

Section Accesses.
Variables (board : Board) (h w : Z).
Hypothesis Hshape : well_shaped board h w.

Lemma cell_at_in_range r c :
    0 ≤ r < h → 0 ≤ c < w → ∃ x, cell_at board r c = Some x.
  Proof.
    intros Hr Hc. destruct Hshape as (_ & _ & Hlen & Hrows).
    unfold cell_at.
    replace ((r <? 0) || (c <? 0)) with false by (symmetry; apply orb_false_iff; lia).
    destruct (lookup_lt_is_Some_2 board (Z.to_nat r)) as [row Hrow]; [lia|].
    rewrite Hrow. simpl.
    apply (Forall_lookup_1 _ _ _ _ Hrows) in Hrow as Hl.
    destruct (lookup_lt_is_Some_2 row (Z.to_nat c)) as [x Hx]; [lia|].
    eauto.
  Qed.

Lemma store_cell_in_range r c x :
    0 ≤ r < h → 0 ≤ c < w →
    ∃ board', store_cell board r c x = Some board'
      ∧ well_shaped board' h w
      ∧ cell_at board' r c = Some x
      ∧ ∀ r' c', (r', c') ≠ (r, c) → cell_at board' r' c' = cell_at board r' c'.
  Proof.
    intros Hr Hc. destruct Hshape as (Hh & Hw & Hlen & Hrows).
    unfold store_cell.
    replace ((r <? 0) || (c <? 0)) with false by (symmetry; apply orb_false_iff; lia).
    destruct (lookup_lt_is_Some_2 board (Z.to_nat r)) as [row Hrow]; [lia|].
    rewrite Hrow. simpl.
    apply (Forall_lookup_1 _ _ _ _ Hrows) in Hrow as Hl.
    destruct (lookup_lt_is_Some_2 row (Z.to_nat c)) as [y Hy]; [lia|].
    rewrite Hy. simpl. eexists. split; [done|].
    split; [|split].
    - repeat split; [done|done|by rewrite length_insert|].
      apply Forall_insert; [done|]. by rewrite length_insert.
    - unfold cell_at.
      replace ((r <? 0) || (c <? 0)) with false by (symmetry; apply orb_false_iff; lia).
      rewrite list_lookup_insert_eq by lia. simpl.
      rewrite list_lookup_insert_eq by lia. done.
    - intros r' c' Hne. unfold cell_at.
      destruct ((r' <? 0) || (c' <? 0)) eqn:Hneg; [done|].
      apply orb_false_iff in Hneg as [Hr' Hc'].
      destruct (decide (r' = r)) as [->|Hrr].
      + rewrite list_lookup_insert_eq by lia. rewrite Hrow. simpl.
        rewrite list_lookup_insert_ne; [done|].
        intros Heq. apply Hne. f_equal. lia.
      + rewrite list_lookup_insert_ne; [done|]. lia.
  Qed.

Lemma set_new_value_in_range r c v :
    0 ≤ r < h → 0 ≤ c < w →
    ∃ x board', cell_at board r c = Some x
      ∧ set_new_value board r c v = Some board'
      ∧ well_shaped board' h w
      ∧ cell_at board' r c
        = Some {| current_value := current_value x; new_value := v |}
      ∧ ∀ r' c', (r', c') ≠ (r, c) → cell_at board' r' c' = cell_at board r' c'.
  Proof.
    intros Hr Hc. destruct (cell_at_in_range r c Hr Hc) as [x Hx].
    destruct (store_cell_in_range r c
                {| current_value := current_value x; new_value := v |} Hr Hc)
      as (board' & Hst & ?). 
    exists x, board'. split; [done|]. split; [|done].
    unfold set_new_value. rewrite Hx. done.
  Qed.

Lemma set_current_value_in_range r c v :
    0 ≤ r < h → 0 ≤ c < w →
    ∃ x board', cell_at board r c = Some x
      ∧ set_current_value board r c v = Some board'
      ∧ well_shaped board' h w
      ∧ cell_at board' r c
        = Some {| current_value := v; new_value := new_value x |}
      ∧ ∀ r' c', (r', c') ≠ (r, c) → cell_at board' r' c' = cell_at board r' c'.
  Proof.
    intros Hr Hc. destruct (cell_at_in_range r c Hr Hc) as [x Hx].
    destruct (store_cell_in_range r c
                {| current_value := v; new_value := new_value x |} Hr Hc)
      as (board' & Hst & ?). 
    exists x, board'. split; [done|]. split; [|done].
    unfold set_current_value. rewrite Hx. done.
  Qed.
End Accesses.

(** ** Neighbour counting *)

Lemma to_size_t_small x : 0 ≤ x ≤ INT_MAX + 1 → to_size_t x = x.
Proof.
  intros Hx. unfold to_size_t. apply Z.mod_small.
  unfold INT_MAX in Hx. change (2 ^ 64) with 18446744073709551616. lia.
Qed.

Lemma to_size_t_offset x d :
  0 ≤ x ≤ INT_MAX → -1 ≤ d ≤ 1 →
  to_size_t (x + d) = if x + d <? 0 then 2 ^ 64 - 1 else x + d.
Proof.
  intros Hx Hd. destruct (x + d <? 0) eqn:Hneg.
  - apply Z.ltb_lt in Hneg. by replace (x + d) with (-1) by lia.
  - apply Z.ltb_ge in Hneg. apply to_size_t_small. lia.
Qed.

Section Counting.
Variables (board : Board) (h w : Z).
Hypothesis Hshape : well_shaped board h w.
Hypothesis Hh : h ≤ INT_MAX.
Hypothesis Hw : w ≤ INT_MAX.
Variables (r c : Z).
Hypothesis Hr : 0 ≤ r < h.
Hypothesis Hc : 0 ≤ c < w.

Lemma count_neighbour_counted acc o :
    -1 ≤ o.1 ≤ 1 → -1 ≤ o.2 ≤ 1 →
    count_neighbour board h w r c acc o
    = Some (if spec_counted board h w r c o then acc + 1 else acc).
  Proof.
    intros Ho1 Ho2. unfold count_neighbour, spec_counted, spec_inside.
    rewrite (to_size_t_small h), (to_size_t_small w) by lia.
    rewrite !to_size_t_offset by lia.
    unfold INT_MAX in *. change (2 ^ 64) with 18446744073709551616.
    destruct (r + o.1 <? 0) eqn:Hy.
    { apply Z.ltb_lt in Hy.
      replace (h <=? 18446744073709551616 - 1) with true
        by (symmetry; apply Z.leb_le; lia).
      replace (0 <=? r + o.1) with false by (symmetry; apply Z.leb_gt; lia).
      done. }
    apply Z.ltb_ge in Hy.
    replace (0 <=? r + o.1) with true by (symmetry; apply Z.leb_le; lia).
    destruct (c + o.2 <? 0) eqn:Hx.
    { apply Z.ltb_lt in Hx.
      replace (w <=? 18446744073709551616 - 1) with true
        by (symmetry; apply Z.leb_le; lia).
      replace (0 <=? c + o.2) with false by (symmetry; apply Z.leb_gt; lia).
      rewrite orb_true_r, andb_false_r. done. }
    apply Z.ltb_ge in Hx.
    replace (0 <=? c + o.2) with true by (symmetry; apply Z.leb_le; lia).
    rewrite (Z.leb_antisym (r + o.1) h), (Z.leb_antisym (c + o.2) w).
    destruct (r + o.1 <? h) eqn:Hy'; simpl; [|done].
    destruct (c + o.2 <? w) eqn:Hx'; simpl; [|done].
    apply Z.ltb_lt in Hy', Hx'.
    destruct (cell_at_in_range board h w Hshape (r + o.1) (c + o.2))
      as [x Hcell]; [lia|lia|].
    unfold spec_alive, current_at. rewrite Hcell. simpl.
    by destruct (current_value x =? HASH).
  Qed.

Lemma count_neighbours_fold os acc :
    Forall (λ o : Z * Z, -1 ≤ o.1 ≤ 1 ∧ -1 ≤ o.2 ≤ 1) os →
    foldl (λ a n, k ← a; count_neighbour board h w r c k n) (Some acc) os
    = Some (acc + spec_count board h w r c os).
  Proof.
    intros Hos. revert acc. induction Hos as [|o os [Ho1 Ho2] _ IH]; intros acc.
    - simpl. f_equal. lia.
    - simpl. rewrite count_neighbour_counted by done. rewrite IH.
      f_equal. destruct (spec_counted board h w r c o); lia.
  Qed.

Lemma count_neighbours_spec :
    count_neighbours board h w r c
    = Some (spec_live_neighbours board h w r c).
  Proof.
    unfold count_neighbours, spec_live_neighbours.
    change neighbour with spec_offsets.
    rewrite count_neighbours_fold; [done|].
    unfold spec_offsets. repeat constructor; simpl; lia.
  Qed.
End Counting.

Lemma spec_count_le_candidates board h w r c :
  0 ≤ spec_live_neighbours board h w r c ≤ spec_candidates h w r c.
Proof.
  unfold spec_live_neighbours, spec_candidates, spec_count.
  induction spec_offsets as [|o os IH]; simpl; [lia|].
  destruct (spec_counted board h w r c o) eqn:Hcounted.
  - unfold spec_counted in Hcounted. apply andb_true_iff in Hcounted as [-> _].
    lia.
  - destruct (spec_inside h w (r + o.1) (c + o.2)); lia.
Qed.

Lemma spec_candidates_bounds h w r c :
  0 ≤ r < h → 0 ≤ c < w →
  spec_candidates h w r c ≤ 8
  ∧ ((r = 0 ∨ r = h - 1) ∨ (c = 0 ∨ c = w - 1) → spec_candidates h w r c ≤ 5)
  ∧ ((r = 0 ∨ r = h - 1) ∧ (c = 0 ∨ c = w - 1) → spec_candidates h w r c ≤ 3).
Proof.
  intros Hr Hc. unfold spec_candidates, spec_offsets, spec_inside. simpl.
  destruct (Z.leb_spec 0 (r + -1)), (Z.ltb_spec (r + 1) h),
           (Z.leb_spec 0 (c + -1)), (Z.ltb_spec (c + 1) w);
    repeat match goal with
           | |- context [?a <=? ?b] =>
               first [ replace (a <=? b) with true
                         by (symmetry; apply Z.leb_le; lia)
                     | replace (a <=? b) with false
                         by (symmetry; apply Z.leb_gt; lia) ]
           | |- context [?a <? ?b] =>
               first [ replace (a <? b) with true
                         by (symmetry; apply Z.ltb_lt; lia)
                     | replace (a <? b) with false
                         by (symmetry; apply Z.ltb_ge; lia) ]
           end; simpl; lia.
Qed.

(** ** updateBoard computes the rule on the board it was given *)

Lemma current_at_cell board r c x :
  cell_at board r c = Some x → current_at board r c = current_value x.
Proof. intros H. unfold current_at. by rewrite H. Qed.

Lemma new_at_cell board r c x :
  cell_at board r c = Some x → new_at board r c = new_value x.
Proof. intros H. unfold new_at. by rewrite H. Qed.

Lemma spec_count_ext board board' h w r c os :
  (∀ r' c', 0 ≤ r' < h → 0 ≤ c' < w →
            current_at board' r' c' = current_at board r' c') →
  spec_count board' h w r c os = spec_count board h w r c os.
Proof.
  intros Hcur. induction os as [|o os IH]; simpl; [done|].
  rewrite IH.
  replace (spec_counted board' h w r c o) with (spec_counted board h w r c o);
    [done|].
  unfold spec_counted.
  destruct (spec_inside h w (r + o.1) (c + o.2)) eqn:Hin; [|done].
  simpl. unfold spec_alive. rewrite Hcur; [done| |];
    unfold spec_inside in Hin; lia.
Qed.

Lemma update_cell_next_value board h w r c n x :
  count_neighbours board h w r c = Some n →
  cell_at board r c = Some x →
  update_cell h w r c board
  = set_new_value board r c (next_value (current_value x) n).
Proof.
  intros Hn Hx. unfold update_cell, next_value. rewrite Hn. simpl.
  rewrite Hx. simpl.
  destruct ((current_value x =? HASH) && ((n =? 2) || (n =? 3))); [done|].
  by destruct ((current_value x =? DOT) && (n =? 3)).
Qed.

Lemma computed_before_next i j r c :
  computed_before i (j + 1) r c → (r, c) ≠ (i, j) → computed_before i j r c.
Proof.
  unfold computed_before. intros [?|[-> ?]] Hne; [by left|].
  right. split; [done|]. destruct (decide (c = j)) as [->|]; [done|lia].
Qed.

Lemma computed_before_row i w r c :
  0 ≤ c < w → computed_before (i + 1) 0 r c → computed_before i w r c.
Proof. unfold computed_before. lia. Qed.

Section Update.
Variables (board0 : Board) (h w : Z).
Hypothesis Hshape : well_shaped board0 h w.
Hypothesis Hh : h ≤ INT_MAX.
Hypothesis Hw : w ≤ INT_MAX.

Lemma update_cell_inv i j board :
  0 ≤ i < h → 0 ≤ j < w →
  update_inv board0 h w i j board →
  ∃ board', update_cell h w i j board = Some board'
            ∧ update_inv board0 h w i (j + 1) board'.
Proof.
  intros Hi Hj [Hsh Hinv].
  destruct (set_new_value_in_range board h w Hsh i j
              (next_value (current_at board0 i j)
                          (spec_live_neighbours board0 h w i j)) Hi Hj)
    as (x & board' & Hx & Hset & Hsh' & Hnew & Hother).
  destruct (Hinv i j Hi Hj) as [Hcur _].
  rewrite (current_at_cell _ _ _ _ Hx) in Hcur.
  exists board'. split.
  - rewrite (update_cell_next_value board h w i j
               (spec_live_neighbours board0 h w i j) x); [by rewrite Hcur| |done].
    rewrite (count_neighbours_spec board h w Hsh Hh Hw i j Hi Hj).
    f_equal. apply spec_count_ext. intros r' c' Hr' Hc'.
    by destruct (Hinv r' c' Hr' Hc').
  - split; [done|]. intros r c Hr Hc.
    destruct (decide ((r, c) = (i, j))) as [[= -> ->]|Hne].
    + rewrite (current_at_cell _ _ _ _ Hnew), (new_at_cell _ _ _ _ Hnew).
      simpl. done.
    + unfold current_at, new_at. rewrite (Hother r c Hne).
      destruct (Hinv r c Hr Hc) as [Hc1 Hc2]. split; [done|].
      intros Hbefore. apply Hc2. by apply computed_before_next.
Qed.

Lemma update_row_inv i board :
  0 ≤ i < h →
  update_inv board0 h w i 0 board →
  ∃ board', for_loop (to_size_t w) (update_cell h w i) board = Some board'
            ∧ update_inv board0 h w (i + 1) 0 board'.
Proof.
  intros Hi Hinv. destruct Hshape as (_ & Hw0 & _).
  rewrite to_size_t_small by lia.
  destruct (for_loop_inv (λ j, update_inv board0 h w i j)
              (update_cell h w i) w board Hw0 Hinv)
    as (board' & Hloop & Hsh' & Hinv').
  - intros j t Hj. by apply update_cell_inv.
  - exists board'. split; [done|]. split; [done|].
    intros r c Hr Hc. destruct (Hinv' r c Hr Hc) as [Hc1 Hc2].
    split; [done|]. intros Hbefore. apply Hc2.
    apply computed_before_row; [lia|done].
Qed.

Lemma persist_cell_inv board1 i j board :
  0 ≤ i < h → 0 ≤ j < w →
  persist_inv board1 h w i j board →
  ∃ board', persist_cell i j board = Some board'
            ∧ persist_inv board1 h w i (j + 1) board'.
Proof.
  intros Hi Hj [Hsh Hinv].
  destruct (set_current_value_in_range board h w Hsh i j
              (new_at board i j) Hi Hj)
    as (x & board' & Hx & Hset & Hsh' & Hnew & Hother).
  destruct (Hinv i j Hi Hj) as [Hn _].
  exists board'. split.
  - unfold persist_cell. rewrite Hx. simpl.
    by rewrite <- (new_at_cell _ _ _ _ Hx).
  - split; [done|]. intros r c Hr Hc.
    destruct (decide ((r, c) = (i, j))) as [[= -> ->]|Hne].
    + rewrite (current_at_cell _ _ _ _ Hnew), (new_at_cell _ _ _ _ Hnew).
      simpl. rewrite <- (new_at_cell _ _ _ _ Hx). done.
    + unfold current_at, new_at. rewrite (Hother r c Hne).
      destruct (Hinv r c Hr Hc) as [Hc1 Hc2]. split; [done|].
      intros Hbefore. apply Hc2. by apply computed_before_next.
Qed.

Lemma persist_row_inv board1 i board :
  0 ≤ i < h →
  persist_inv board1 h w i 0 board →
  ∃ board', for_loop (to_size_t w) (persist_cell i) board = Some board'
            ∧ persist_inv board1 h w (i + 1) 0 board'.
Proof.
  intros Hi Hinv. destruct Hshape as (_ & Hw0 & _).
  rewrite to_size_t_small by lia.
  destruct (for_loop_inv (λ j, persist_inv board1 h w i j)
              (persist_cell i) w board Hw0 Hinv)
    as (board' & Hloop & Hsh' & Hinv').
  - intros j t Hj. by apply persist_cell_inv.
  - exists board'. split; [done|]. split; [done|].
    intros r c Hr Hc. destruct (Hinv' r c Hr Hc) as [Hc1 Hc2].
    split; [done|]. intros Hbefore. apply Hc2.
    apply computed_before_row; [lia|done].
Qed.

(** The board after [updateBoard]: every cell holds, in both fields, the
    value the three assignments give for its own current value and its
    live neighbours on the board before the call. *)
Lemma updateBoard_next_value :
  ∃ board', updateBoard board0 h w = Some board'
    ∧ well_shaped board' h w
    ∧ ∀ r c, 0 ≤ r < h → 0 ≤ c < w →
        cell_at board' r c
        = Some (let v := next_value (current_at board0 r c)
                           (spec_live_neighbours board0 h w r c) in
                {| current_value := v; new_value := v |}).
Proof.
  pose proof Hshape as (Hh0 & Hw0 & _).
  unfold updateBoard. rewrite (to_size_t_small h) by lia.
  destruct (for_loop_inv (λ i, update_inv board0 h w i 0)
              (λ row, for_loop (to_size_t w) (update_cell h w row))
              h board0 Hh0)
    as (board1 & Hloop1 & Hsh1 & Hinv1).
  { split; [done|]. intros r c Hr Hc. split; [done|].
    unfold computed_before. lia. }
  { intros i t Hi. by apply update_row_inv. }
  rewrite Hloop1. simpl.
  destruct (for_loop_inv (λ i, persist_inv board1 h w i 0)
              (λ row, for_loop (to_size_t w) (persist_cell row))
              h board1 Hh0)
    as (board2 & Hloop2 & Hsh2 & Hinv2).
  { split; [done|]. intros r c Hr Hc. split; [done|].
    unfold computed_before. lia. }
  { intros i t Hi. by apply persist_row_inv. }
  exists board2. split; [done|]. split; [done|].
  intros r c Hr Hc.
  destruct (Hinv2 r c Hr Hc) as [Hn2 Hc2].
  destruct (Hinv1 r c Hr Hc) as [_ Hn1].
  destruct (cell_at_in_range board2 h w Hsh2 r c Hr Hc) as [x Hx].
  rewrite (new_at_cell _ _ _ _ Hx) in Hn2.
  rewrite (current_at_cell _ _ _ _ Hx) in Hc2.
  rewrite Hx. simpl. f_equal. destruct x as [cv nv]. simpl in *.
  rewrite Hc2, Hn2, Hn1 by (unfold computed_before; lia). done.
Qed.
End Update.

(** ** The scan of checkConfigFile *)

Lemma check_char_marker b last col row :
  is_marker b → col + 1 ≤ INT_MAX →
  check_char (Z.of_N (Byte.to_N b)) (mkCounters last col row)
  = Continue (mkCounters last (col + 1) row).
Proof.
  intros Hb Hcol. unfold check_char. simpl.
  replace (INT_MAX <? col + 1) with false by (symmetry; apply Z.ltb_ge; lia).
  by destruct Hb as [-> | ->].
Qed.

Lemma check_char_newline last col row :
  col + 1 ≤ INT_MAX → row + 1 ≤ INT_MAX →
  check_char (Z.of_N (Byte.to_N nl)) (mkCounters last col row)
  = if (if last =? 0 then col + 1 else last) =? col + 1
    then Continue (mkCounters (col + 1) 0 (row + 1))
    else Fail InconsistentColumnCount.
Proof.
  intros Hcol Hrow. unfold check_char. simpl.
  replace (INT_MAX <? col + 1) with false by (symmetry; apply Z.ltb_ge; lia).
  replace (INT_MAX <? row + 1) with false by (symmetry; apply Z.ltb_ge; lia).
  change (to_char 10 =? NEWLINE) with true. simpl.
  destruct ((if last =? 0 then col + 1 else last) =? col + 1) eqn:Heq;
    simpl; [|done].
  apply Z.eqb_eq in Heq. by rewrite Heq.
Qed.

Lemma check_char_EOF last col row :
  col + 1 ≤ INT_MAX →
  check_char EOF (mkCounters last col row)
  = if last =? col + 1 then Break (mkCounters last (col + 1) row)
    else Fail InconsistentColumnCount.
Proof.
  intros Hcol. unfold check_char. simpl.
  replace (INT_MAX <? col + 1) with false by (symmetry; apply Z.ltb_ge; lia).
  change (to_char EOF =? NEWLINE) with false.
  change (to_char EOF =? EOF) with true. simpl.
  by destruct (last =? col + 1).
Qed.

Lemma check_char_EOF_stops st st' : check_char EOF st ≠ Continue st'.
Proof.
  unfold check_char.
  destruct (INT_MAX <? current_column_count st + 1); [done|].
  change (to_char EOF =? NEWLINE) with false.
  change (to_char EOF =? EOF) with true. simpl.
  by destruct (negb (last_column_count st =? current_column_count st + 1)).
Qed.

(** [check_loop] with enough fuel is [scan]; the stream it returns still
    has the contents it was opened with. *)
Lemma check_loop_scan data bytes st fuel :
  (length bytes < fuel)%nat →
  match scan bytes st with
  | Return_OK st' =>
      ∃ f, check_loop fuel (mkFILE data bytes false) st = Return_OK (f, st')
           ∧ contents f = data
  | Return_ERROR e =>
      check_loop fuel (mkFILE data bytes false) st = Return_ERROR e
  | Undefined => check_loop fuel (mkFILE data bytes false) st = Undefined
  | OutOfFuel => False
  end.
Proof.
  revert st fuel. induction bytes as [|b rest IH]; intros st fuel Hfuel.
  - destruct fuel as [|fuel]; [simpl in Hfuel; lia|].
    simpl. destruct (check_char EOF st) eqn:Hch; eauto.
    by apply check_char_EOF_stops in Hch.
  - destruct fuel as [|fuel]; [simpl in Hfuel; lia|].
    simpl. destruct (check_char (Z.of_N (Byte.to_N b)) st) eqn:Hch; eauto.
    apply IH. simpl in Hfuel. lia.
Qed.

Lemma checkConfigFile_scan data :
  match scan data initial_counters with
  | Return_OK st =>
      if INT_MAX <? row_count st + 1
      then checkConfigFile (Some data) = Undefined
      else ∃ f, checkConfigFile (Some data)
                = Return_OK (f, (to_uint8 (row_count st + 1),
                                 to_uint8 (last_column_count st - 1)))
                ∧ contents f = data
  | Return_ERROR e => checkConfigFile (Some data) = Return_ERROR e
  | Undefined => checkConfigFile (Some data) = Undefined
  | OutOfFuel => False
  end.
Proof.
  pose proof (check_loop_scan data data initial_counters (S (length data))) as H.
  unfold checkConfigFile, fopen. fold initial_counters.
  destruct (scan data initial_counters) as [st|e| |].
  - destruct H as (f & -> & Hf); [lia|].
    destruct (INT_MAX <? row_count st + 1); eauto.
  - rewrite H; [done|lia].
  - rewrite H; [done|lia].
  - apply H. lia.
Qed.

Lemma scan_markers line rest last col row :
  Forall is_marker line →
  col + Z.of_nat (length line) ≤ INT_MAX →
  scan (line ++ rest) (mkCounters last col row)
  = scan rest (mkCounters last (col + Z.of_nat (length line)) row).
Proof.
  intros Hline. revert col.
  induction Hline as [|b line Hb _ IH]; intros col Hcol; simpl.
  - by rewrite Z.add_0_r.
  - simpl in Hcol. rewrite check_char_marker by (done || lia).
    rewrite IH by lia. do 2 f_equal. lia.
Qed.

Lemma scan_newline rest last col row :
  col + 1 ≤ INT_MAX → row + 1 ≤ INT_MAX →
  scan (nl :: rest) (mkCounters last col row)
  = if (if last =? 0 then col + 1 else last) =? col + 1
    then scan rest (mkCounters (col + 1) 0 (row + 1))
    else Return_ERROR InconsistentColumnCount.
Proof.
  intros Hcol Hrow. simpl scan. rewrite check_char_newline by done.
  by destruct ((if last =? 0 then col + 1 else last) =? col + 1).
Qed.

Lemma scan_end last col row :
  col + 1 ≤ INT_MAX →
  scan [] (mkCounters last col row)
  = if last =? col + 1 then Return_OK (mkCounters last (col + 1) row)
    else Return_ERROR InconsistentColumnCount.
Proof.
  intros Hcol. simpl scan. rewrite check_char_EOF by done.
  by destruct (last =? col + 1).
Qed.

(** A complete line of the expected length moves the scan to the next row. *)
Lemma scan_line line rest last row :
  Forall is_marker line →
  last = 0 ∨ last = Z.of_nat (length line) + 1 →
  Z.of_nat (length line) + 1 ≤ INT_MAX → row + 1 ≤ INT_MAX →
  scan (line ++ nl :: rest) (mkCounters last 0 row)
  = scan rest (mkCounters (Z.of_nat (length line) + 1) 0 (row + 1)).
Proof.
  intros Hline Hlast Hlen Hrow.
  rewrite scan_markers by (done || lia). rewrite Z.add_0_l.
  rewrite scan_newline by lia.
  replace ((if last =? 0 then Z.of_nat (length line) + 1 else last)
           =? Z.of_nat (length line) + 1) with true; [done|].
  symmetry. apply Z.eqb_eq. destruct Hlast as [-> | ->]; [done|].
  destruct (Z.eqb_spec (Z.of_nat (length line) + 1) 0); lia.
Qed.

Lemma scan_terminated lines m rest last row :
  Forall (λ l, Forall is_marker l ∧ Z.of_nat (length l) = m) lines →
  last = 0 ∨ last = m + 1 →
  m + 1 ≤ INT_MAX → row + Z.of_nat (length lines) ≤ INT_MAX →
  scan (terminated lines ++ rest) (mkCounters last 0 row)
  = scan rest (mkCounters (if lines is [] then last else m + 1) 0
                          (row + Z.of_nat (length lines))).
Proof.
  intros Hlines. revert last row.
  induction Hlines as [|l lines [Hl Hm] _ IH]; intros last row Hlast Hmax Hrow.
  - simpl. by rewrite Z.add_0_r.
  - unfold terminated. simpl. rewrite <- !app_assoc. simpl.
    simpl in Hrow. rewrite scan_line by (done || lia).
    fold (terminated lines). rewrite Hm. rewrite IH by lia.
    do 2 f_equal; [by destruct lines|lia].
Qed.

Lemma length_terminated lines m :
  Forall (λ l, Forall is_marker l ∧ Z.of_nat (length l) = m) lines →
  Z.of_nat (length (terminated lines)) = Z.of_nat (length lines) * (m + 1).
Proof.
  induction 1 as [|l lines [_ Hm] _ IH]; [done|].
  unfold terminated in *. simpl. rewrite !length_app. simpl. lia.
Qed.

Lemma separated_cons l lines : separated (l :: lines) = l ++ sep_tail lines.
Proof. destruct lines; simpl; [by rewrite app_nil_r|done]. Qed.

Lemma separated_snoc lines l : separated (lines ++ [l]) = terminated lines ++ l.
Proof.
  induction lines as [|l' lines IH]; [done|].
  change ((l' :: lines) ++ [l]) with (l' :: (lines ++ [l])).
  rewrite separated_cons. unfold sep_tail.
  destruct (lines ++ [l]) eqn:Heq; [by destruct lines|].
  rewrite IH. unfold terminated. simpl. by rewrite <- !app_assoc.
Qed.

(** ** fillBoard reads the rows of a separated text *)

Lemma well_shaped_calloc h w :
  0 ≤ h → 0 ≤ w → well_shaped (calloc_board h w) h w.
Proof.
  intros Hh Hw. unfold calloc_board. repeat split; [done|done| |].
  - by rewrite length_replicate.
  - apply Forall_replicate. by rewrite length_replicate.
Qed.

Lemma well_shaped_board_of_rows lines h w :
  Z.of_nat (length lines) = h →
  Forall (λ l, Z.of_nat (length l) = w) lines →
  0 ≤ w →
  well_shaped (board_of_rows lines) h w.
Proof.
  intros Hh Hlines Hw. unfold board_of_rows. repeat split; [lia|done| |].
  - rewrite length_fmap. lia.
  - apply Forall_fmap. eapply List.Forall_impl; [|exact Hlines].
    intros l Hl. simpl in *. rewrite length_fmap. lia.
Qed.

Lemma cell_at_board_of_rows lines r c line b :
  0 ≤ r → 0 ≤ c →
  lines !! Z.to_nat r = Some line → line !! Z.to_nat c = Some b →
  cell_at (board_of_rows lines) r c
  = Some {| current_value := char_of_byte b; new_value := char_of_byte b |}.
Proof.
  intros Hr Hc Hline Hb. unfold cell_at, board_of_rows.
  replace ((r <? 0) || (c <? 0)) with false by (symmetry; apply orb_false_iff; lia).
  rewrite list_lookup_fmap, Hline. simpl.
  by rewrite list_lookup_fmap, Hb.
Qed.

Lemma board_ext (board board' : Board) h w :
  well_shaped board h w → well_shaped board' h w →
  (∀ r c, 0 ≤ r < h → 0 ≤ c < w → cell_at board r c = cell_at board' r c) →
  board = board'.
Proof.
  intros (_ & _ & Hlen & Hrows) (_ & _ & Hlen' & Hrows') Hcells.
  apply list_eq. intros i.
  destruct (decide (i < length board)%nat) as [Hi|Hi].
  - destruct (lookup_lt_is_Some_2 board i) as [row Hrow]; [done|].
    destruct (lookup_lt_is_Some_2 board' i) as [row' Hrow']; [lia|].
    rewrite Hrow, Hrow'. f_equal.
    apply (Forall_lookup_1 _ _ _ _ Hrows) in Hrow as Hl.
    apply (Forall_lookup_1 _ _ _ _ Hrows') in Hrow' as Hl'.
    apply list_eq. intros j.
    destruct (decide (j < length row)%nat) as [Hj|Hj].
    + specialize (Hcells (Z.of_nat i) (Z.of_nat j)).
      unfold cell_at in Hcells.
      replace ((Z.of_nat i <? 0) || (Z.of_nat j <? 0)) with false in Hcells
        by (symmetry; apply orb_false_iff; lia).
      rewrite !Nat2Z.id, Hrow, Hrow' in Hcells. simpl in Hcells.
      apply Hcells; lia.
    + rewrite !lookup_ge_None_2; [done|lia|lia].
  - rewrite !lookup_ge_None_2; [done|lia|lia].
Qed.

Lemma drop_lookup_head {A} (l : list A) n x rest :
  drop n l = x :: rest → l !! n = Some x ∧ drop (S n) l = rest.
Proof.
  intros Hdrop. split.
  - pose proof (lookup_drop l n 0) as H. rewrite Hdrop in H.
    simpl in H. by rewrite Nat.add_0_r in H.
  - replace (S n) with (n + 1)%nat by lia.
    rewrite <- drop_drop, Hdrop. done.
Qed.

Lemma unread_fgetc f : unread (fgetc f).2 = tail (unread f).
Proof. unfold fgetc. by destruct (unread f). Qed.

Section Fill.
Variables (lines : list (list byte)) (h w : Z).
Hypothesis Hheight : Z.of_nat (length lines) = h.
Hypothesis Hwidth : Forall (λ l, Z.of_nat (length l) = w) lines.
Hypothesis Hw0 : 0 ≤ w.

Lemma fill_cell_step i j s :
  0 ≤ i < h → 0 ≤ j < w →
  fill_cell_inv lines h w i j s →
  ∃ s', fill_cell i j s = Some s' ∧ fill_cell_inv lines h w i (j + 1) s'.
Proof.
  intros Hi Hj. destruct s as [f board].
  intros (Hsh & (line & rest & Hdrop & Hun) & Hcells). simpl in *.
  destruct (drop_lookup_head _ _ _ _ Hdrop) as [Hline _].
  apply (Forall_lookup_1 _ _ _ _ Hwidth) in Hline as Hlen.
  destruct (lookup_lt_is_Some_2 line (Z.to_nat j)) as [b Hb]; [lia|].
  rewrite (drop_S _ _ _ Hb) in Hun. simpl in Hun.
  destruct (set_current_value_in_range board h w Hsh i j (char_of_byte b) Hi Hj)
    as (x & board1 & Hx & Hset1 & Hsh1 & Hnew1 & Hother1).
  destruct (set_new_value_in_range board1 h w Hsh1 i j (char_of_byte b) Hi Hj)
    as (x1 & board2 & Hx1 & Hset2 & Hsh2 & Hnew2 & Hother2).
  rewrite Hnew1 in Hx1. injection Hx1 as <-. simpl in Hnew2.
  eexists. split.
  - unfold fill_cell, fgetc. simpl. rewrite Hun. fold (char_of_byte b).
    rewrite Hset1. simpl. rewrite Hset2. simpl. done.
  - split; [done|]. split; simpl.
    + exists line, rest. split; [done|].
      by replace (Z.to_nat (j + 1)) with (S (Z.to_nat j)) by lia.
    + intros r c Hr Hc Hbefore.
      destruct (decide ((r, c) = (i, j))) as [[= -> ->]|Hne].
      * rewrite Hnew2. symmetry.
        by apply (cell_at_board_of_rows lines i j line b); try lia.
      * rewrite (Hother2 r c Hne), (Hother1 r c Hne).
        apply Hcells; [done|done|]. by apply computed_before_next.
Qed.

Lemma fill_row_step i s :
  0 ≤ i < h →
  fill_row_inv lines h w i s →
  ∃ s', fill_row w i s = Some s' ∧ fill_row_inv lines h w (i + 1) s'.
Proof.
  intros Hi (Hsh & Hun & Hcells).
  destruct (drop (Z.to_nat i) lines) as [|line rest] eqn:Hdrop.
  { apply (f_equal length) in Hdrop. rewrite length_drop in Hdrop.
    simpl in Hdrop. lia. }
  destruct (drop_lookup_head _ _ _ _ Hdrop) as [Hline Hrest].
  apply (Forall_lookup_1 _ _ _ _ Hwidth) in Hline as Hlen.
  rewrite separated_cons in Hun.
  destruct (for_loop_inv (λ j, fill_cell_inv lines h w i j)
              (fill_cell i) w s Hw0)
    as (s1 & Hloop & Hsh1 & (line1 & rest1 & Hdrop1 & Hun1) & Hcells1).
  { split; [done|]. split.
    - exists line, rest. by split.
    - intros r c Hr Hc Hbefore. apply Hcells; [done|done|].
      unfold computed_before in Hbefore. lia. }
  { intros j t Hj. by apply fill_cell_step. }
  rewrite Hdrop in Hdrop1. injection Hdrop1 as <- <-.
  rewrite drop_ge in Hun1 by lia. simpl in Hun1.
  exists ((fgetc s1.1).2, s1.2). split.
  { unfold fill_row. rewrite Hloop. simpl. by destruct (fgetc s1.1). }
  split; [done|]. split; simpl.
  - replace (Z.to_nat (i + 1)) with (S (Z.to_nat i)) by lia. rewrite Hrest.
    rewrite unread_fgetc, Hun1. unfold sep_tail. by destruct rest.
  - intros r c Hr Hc Hlt. apply Hcells1; [done|done|].
    unfold computed_before. lia.
Qed.

Lemma fillBoard_rows f :
  contents f = separated lines →
  ∃ f', fillBoard f h w = Some (f', board_of_rows lines).
Proof.
  intros Hf. unfold fillBoard.
  destruct (for_loop_inv (λ i, fill_row_inv lines h w i)
              (fill_row w) h (rewind f, calloc_board h w))
    as ([f' board] & Hloop & Hsh & _ & Hcells).
  - lia.
  - split; [apply well_shaped_calloc; lia|]. split; [done|].
    intros; lia.
  - intros i t Hi. by apply fill_row_step.
  - exists f'. rewrite Hloop. do 2 f_equal. simpl in *.
    apply (board_ext _ _ h w); [done| |].
    + by apply well_shaped_board_of_rows.
    + intros r c Hr Hc. apply Hcells; [done|done|lia].
Qed.
End Fill.

(** ** The rule on valid boards *)

Lemma valid_board_cell board r c x :
  valid_board board → cell_at board r c = Some x →
  current_value x = DOT ∨ current_value x = HASH.
Proof.
  intros Hvalid Hx. unfold cell_at in Hx.
  destruct ((r <? 0) || (c <? 0)); [done|].
  destruct (board !! Z.to_nat r) as [row|] eqn:Hrow; [|done]. simpl in Hx.
  apply (Forall_lookup_1 _ _ _ _ Hvalid) in Hrow.
  by apply (Forall_lookup_1 _ _ _ _ Hrow) in Hx.
Qed.

Lemma next_value_marker current n :
  next_value current n = DOT ∨ next_value current n = HASH.
Proof.
  unfold next_value.
  destruct ((current =? HASH) && ((n =? 2) || (n =? 3))); [by right|].
  destruct ((current =? DOT) && (n =? 3)); [by right|by left].
Qed.

Lemma next_value_spec board h w r c :
  current_at board r c = DOT ∨ current_at board r c = HASH →
  next_value (current_at board r c) (spec_live_neighbours board h w r c)
  = spec_next_value board h w r c.
Proof.
  intros Hcur. unfold next_value, spec_next_value, spec_next_alive, spec_alive.
  destruct Hcur as [-> | ->]; simpl.
  - by destruct (spec_live_neighbours board h w r c =? 3).
  - by destruct ((spec_live_neighbours board h w r c =? 2)
                 || (spec_live_neighbours board h w r c =? 3)).
Qed.

(** ** What an accepted text looks like *)

Lemma scan_counts bytes :
  Forall is_text_byte bytes →
  ∀ st st', scan bytes st = Return_OK st' →
    0 ≤ current_column_count st →
    row_count st' = row_count st + count_terminators bytes
    ∧ (last_column_count st ≠ 0 → last_column_count st' = last_column_count st)
    ∧ (last_column_count st = 0 →
       last_column_count st'
       = current_column_count st + Z.of_nat (length (first_line bytes)) + 1).
Proof.
  induction 1 as [|b bytes Hb _ IH]; intros [last col row] st' Hscan Hcol;
    simpl in Hcol |- *.
  - simpl in Hscan. unfold check_char in Hscan. simpl in Hscan.
    destruct (INT_MAX <? col + 1); [done|].
    change (to_char EOF =? NEWLINE) with false in Hscan.
    change (to_char EOF =? EOF) with true in Hscan. simpl in Hscan.
    destruct (Z.eqb_spec last (col + 1)); simpl in Hscan; [|done].
    injection Hscan as <-. simpl. lia.
  - simpl in Hscan.
    destruct Hb as [Hb | ->].
    + destruct (INT_MAX <? col + 1) eqn:Hmax.
      { unfold check_char in Hscan. simpl in Hscan. by rewrite Hmax in Hscan. }
      apply Z.ltb_ge in Hmax.
      rewrite check_char_marker in Hscan by done.
      apply IH in Hscan as (Hrow & Hlast1 & Hlast2); [|simpl; lia].
      simpl in *.
      replace (Byte.eqb b nl) with false by (by destruct Hb as [-> | ->]).
      simpl. split; [done|]. split; [done|].
      intros Hz. rewrite (Hlast2 Hz). lia.
    + change (Byte.eqb nl nl) with true. simpl.
      unfold check_char in Hscan. simpl in Hscan.
      destruct (INT_MAX <? col + 1); [done|].
      change (to_char 10 =? NEWLINE) with true in Hscan. simpl in Hscan.
      destruct (Z.eqb_spec (if last =? 0 then col + 1 else last) (col + 1))
        as [Heq|]; simpl in Hscan; [|done].
      destruct (INT_MAX <? row + 1); [done|].
      apply IH in Hscan as (Hrow & Hlast1 & _); [|simpl; lia].
      simpl in *. split; [lia|].
      destruct (Z.eqb_spec last 0) as [->|Hne].
      * split; [done|]. intros _. rewrite Hlast1; lia.
      * split; [|done]. intros _. rewrite Hlast1; lia.
Qed.

Lemma to_uint8_range x : 0 ≤ to_uint8 x ≤ 255.
Proof. unfold to_uint8. pose proof (Z.mod_pos_bound x 256). lia. Qed.

Lemma to_uint8_small x : 0 ≤ x ≤ 255 → to_uint8 x = x.
Proof. intros Hx. unfold to_uint8. apply Z.mod_small. lia. Qed.


(** ** Invalid characters *)

Lemma check_char_invalid b last col row :
  ¬ is_text_byte b → b ≠ xff → col + 1 ≤ INT_MAX →
  check_char (Z.of_N (Byte.to_N b)) (mkCounters last col row)
  = Fail (InvalidCharacter (char_of_byte b)).
Proof.
  intros Hb Hff Hcol. unfold check_char. simpl.
  replace (INT_MAX <? col + 1) with false by (symmetry; apply Z.ltb_ge; lia).
  fold (char_of_byte b).
  destruct b; try reflexivity; exfalso;
    solve [ apply Hb; unfold is_text_byte, is_marker, nl; tauto
          | by apply Hff ].
Qed.

(** * The claims *)

(** C1: on every valid board of [h] rows and [w] columns, [updateBoard]
    returns a board of the same shape in which every cell holds the value
    the standard rule gives on the board before the call: alive with 2 or 3
    live neighbours stays alive, dead with exactly 3 becomes alive, every
    other cell is dead.  The value is committed to both fields of the cell,
    and is a function of the pre-update generation only. *)
Theorem updateBoard_standard_rule board h w :
  well_shaped board h w → h ≤ INT_MAX → w ≤ INT_MAX → valid_board board →
  ∃ board', updateBoard board h w = Some board'
    ∧ well_shaped board' h w
    ∧ ∀ r c, 0 ≤ r < h → 0 ≤ c < w →
        cell_at board' r c
        = Some {| current_value := spec_next_value board h w r c;
                  new_value := spec_next_value board h w r c |}.
Proof.
  intros Hshape Hh Hw Hvalid.
  destruct (updateBoard_next_value board h w Hshape Hh Hw)
    as (board' & Hupd & Hshape' & Hcells).
  exists board'. split; [done|]. split; [done|].
  intros r c Hr Hc. rewrite (Hcells r c Hr Hc). simpl.
  destruct (cell_at_in_range board h w Hshape r c Hr Hc) as [x Hx].
  rewrite next_value_spec; [done|].
  rewrite (current_at_cell _ _ _ _ Hx). by eapply valid_board_cell.
Qed.

Lemma updateBoard_standard_rule_witness :
  ∃ board', updateBoard (board_of_rows blinker_vertical) 3 3 = Some board'
    ∧ well_shaped board' 3 3
    ∧ ∀ r c, 0 ≤ r < 3 → 0 ≤ c < 3 →
        cell_at board' r c
        = Some {| current_value :=
                    spec_next_value (board_of_rows blinker_vertical) 3 3 r c;
                  new_value :=
                    spec_next_value (board_of_rows blinker_vertical) 3 3 r c |}.
Proof.
  apply (updateBoard_standard_rule (board_of_rows blinker_vertical) 3 3).
  - repeat split; [lia|lia|]. repeat constructor.
  - unfold INT_MAX. lia.
  - unfold INT_MAX. lia.
  - repeat constructor; vm_compute; tauto.
Defined.

(** C2: the neighbour count of [updateBoard] at [(r, c)] is the number of
    alive cells among the 8 offsets that land inside [[0, h) × [0, w)];
    offsets outside are not counted and nothing wraps around.  So the count
    is at most 8, at most 5 on an edge and at most 3 in a corner. *)
Theorem count_neighbours_hard_edges board h w r c :
  well_shaped board h w → h ≤ INT_MAX → w ≤ INT_MAX →
  0 ≤ r < h → 0 ≤ c < w →
  ∃ n, count_neighbours board h w r c = Some n
    ∧ n = spec_live_neighbours board h w r c
    ∧ 0 ≤ n ≤ spec_candidates h w r c
    ∧ n ≤ 8
    ∧ ((r = 0 ∨ r = h - 1) ∨ (c = 0 ∨ c = w - 1) → n ≤ 5)
    ∧ ((r = 0 ∨ r = h - 1) ∧ (c = 0 ∨ c = w - 1) → n ≤ 3).
Proof.
  intros Hshape Hh Hw Hr Hc.
  exists (spec_live_neighbours board h w r c).
  split; [by apply count_neighbours_spec|]. split; [done|].
  pose proof (spec_count_le_candidates board h w r c) as Hle.
  destruct (spec_candidates_bounds h w r c Hr Hc) as (H8 & H5 & H3).
  split; [done|]. split; [lia|]. split.
  - intros Hedge. specialize (H5 Hedge). lia.
  - intros Hcorner. specialize (H3 Hcorner). lia.
Qed.

Lemma count_neighbours_hard_edges_witness :
  ∃ n, count_neighbours (board_of_rows blinker_horizontal) 3 3 1 0 = Some n
    ∧ n = spec_live_neighbours (board_of_rows blinker_horizontal) 3 3 1 0
    ∧ 0 ≤ n ≤ spec_candidates 3 3 1 0
    ∧ n ≤ 8
    ∧ ((1 = 0 ∨ 1 = 3 - 1) ∨ (0 = 0 ∨ 0 = 3 - 1) → n ≤ 5)
    ∧ ((1 = 0 ∨ 1 = 3 - 1) ∧ (0 = 0 ∨ 0 = 3 - 1) → n ≤ 3).
Proof.
  apply (count_neighbours_hard_edges (board_of_rows blinker_horizontal) 3 3 1 0).
  - repeat split; [lia|lia|]. repeat constructor.
  - unfold INT_MAX. lia.
  - unfold INT_MAX. lia.
  - lia.
  - lia.
Defined.

(** C3, the claim as stated fails: the 2 x 2 text whose two lines are each
    followed by the terminator is rejected with the inconsistent-column
    message, because at the end of input the empty final line is checked
    against the expected column count. *)
Lemma terminated_text_rejected :
  Forall (λ l, Forall is_marker l ∧ Z.of_nat (length l) = 2)
         [[hash; dot]; [dot; hash]]
  ∧ run_load (Some (terminated [[hash; dot]; [dot; hash]]))
    = Return_ERROR InconsistentColumnCount.
Proof.
  split; [|reflexivity].
  repeat constructor; unfold is_marker, dot, hash; tauto.
Qed.

(** C3, amended: for [n] lines of [m] markers each, [2 ≤ n ≤ 255] and
    [m ≤ 255], separated by the terminator with the last line unterminated,
    loading succeeds with height [n], width [m] and the board of the lines;
    the cell at row [r], column [c] holds the alive-marker exactly when the
    character there is the alive-marker. *)
Theorem run_load_separated lines n m :
  Z.of_nat (length lines) = n → 2 ≤ n ≤ 255 →
  Forall (λ l, Forall is_marker l ∧ Z.of_nat (length l) = m) lines →
  m ≤ 255 →
  run_load (Some (separated lines)) = Return_OK (n, m, board_of_rows lines)
  ∧ ∀ r c line b,
      lines !! r = Some line → line !! c = Some b →
      ∃ x, cell_at (board_of_rows lines) (Z.of_nat r) (Z.of_nat c) = Some x
           ∧ (current_value x = HASH ↔ b = hash).
Proof.
  intros Hn Hn2 Hlines Hm. split.
  - destruct (exists_last (l := lines)) as (init & l & ->).
    { intros ->. simpl in Hn. lia. }
    rewrite length_app in Hn. simpl in Hn.
    apply Forall_app in Hlines as [Hinit Hl].
    apply Forall_singleton in Hl as [Hl Hlen].
    assert (Hscan : scan (separated (init ++ [l])) initial_counters
                    = Return_OK (mkCounters (m + 1) (m + 1) (n - 1))).
    { rewrite separated_snoc. unfold initial_counters.
      rewrite (scan_terminated init m) by (done || (unfold INT_MAX; lia) || auto).
      rewrite <- (app_nil_r l).
      rewrite scan_markers by (done || (unfold INT_MAX; lia)).
      rewrite scan_end by (unfold INT_MAX; lia).
      destruct init as [|l0 init]; [simpl in Hn; lia|].
      rewrite Hlen, Z.add_0_l, Z.eqb_refl. do 2 f_equal. lia. }
    pose proof (checkConfigFile_scan (separated (init ++ [l]))) as Hcheck.
    rewrite Hscan in Hcheck. cbn [row_count last_column_count] in Hcheck.
    replace (INT_MAX <? n - 1 + 1) with false in Hcheck
      by (symmetry; apply Z.ltb_ge; unfold INT_MAX; lia).
    destruct Hcheck as (f & Hcheck & Hf).
    replace (n - 1 + 1) with n in Hcheck by lia.
    replace (m + 1 - 1) with m in Hcheck by lia.
    assert (0 ≤ m) by lia.
    rewrite !to_uint8_small in Hcheck by lia.
    unfold run_load. rewrite Hcheck.
    destruct (fillBoard_rows (init ++ [l]) n m) with (f := f) as (f' & ->).
    + rewrite length_app. simpl. lia.
    + apply Forall_app. split.
      * eapply List.Forall_impl; [|exact Hinit]. by intros ? [_ ?].
      * by apply Forall_singleton.
    + lia.
    + done.
    + done.
  - intros r c line b Hline Hb.
    eexists. split.
    + apply (cell_at_board_of_rows lines _ _ line b); [lia|lia| |];
        by rewrite Nat2Z.id.
    + simpl. apply (Forall_lookup_1 _ _ _ _ Hlines) in Hline as [Hmark _].
      apply (Forall_lookup_1 _ _ _ _ Hmark) in Hb as [-> | ->];
        unfold hash; split; intros Heq; (done || by vm_compute in Heq).
Qed.

Lemma run_load_separated_witness :
  run_load (Some (separated blinker_vertical))
  = Return_OK (3, 3, board_of_rows blinker_vertical)
  ∧ ∀ r c line b,
      blinker_vertical !! r = Some line → line !! c = Some b →
      ∃ x, cell_at (board_of_rows blinker_vertical) (Z.of_nat r) (Z.of_nat c)
           = Some x
           ∧ (current_value x = HASH ↔ b = hash).
Proof.
  apply (run_load_separated blinker_vertical 3 3).
  - reflexivity.
  - lia.
  - repeat constructor; unfold is_marker, dot, hash; tauto.
  - lia.
Defined.

(** C4: the text "##\n#\n" is rejected with the inconsistent-column message.
    In general, after one or more complete lines of [m] markers, a further
    line of markers whose length differs from [m] is rejected with that
    message, whether it is completed by a terminator or is the unterminated
    final line checked at the end of input. *)
Theorem inconsistent_column_count_rejected good bad rest m :
  good ≠ [] →
  Forall (λ l, Forall is_marker l ∧ Z.of_nat (length l) = m) good →
  Forall is_marker bad →
  Z.of_nat (length bad) ≠ m →
  Z.of_nat (length (terminated good ++ bad)) + 1 ≤ INT_MAX →
  checkConfigFile (Some [hash; hash; nl; hash; nl])
  = Return_ERROR InconsistentColumnCount
  ∧ checkConfigFile (Some (terminated good ++ bad ++ nl :: rest))
    = Return_ERROR InconsistentColumnCount
  ∧ checkConfigFile (Some (terminated good ++ bad))
    = Return_ERROR InconsistentColumnCount.
Proof.
  intros Hgood Hlines Hbad Hlen Hmax. split; [reflexivity|].
  rewrite length_app in Hmax.
  pose proof (length_terminated good m Hlines) as Hterm.
  assert (0 < Z.of_nat (length good)) by (destruct good; [done|simpl; lia]).
  assert (0 ≤ m).
  { destruct good as [|l good']; [done|].
    apply Forall_inv in Hlines as [_ Hm]. lia. }
  assert (Hafter : ∀ tail,
    scan (terminated good ++ bad ++ tail) initial_counters
    = scan tail (mkCounters (m + 1) (Z.of_nat (length bad))
                            (Z.of_nat (length good)))).
  { intros tail. unfold initial_counters.
    rewrite (scan_terminated good m) by (done || auto || nia).
    rewrite scan_markers by (done || lia).
    destruct good; [done|]. by rewrite !Z.add_0_l. }
  split.
  - pose proof (checkConfigFile_scan (terminated good ++ bad ++ nl :: rest))
      as Hcheck.
    rewrite Hafter, scan_newline in Hcheck by nia.
    destruct (Z.eqb_spec (m + 1) 0); [lia|].
    destruct (Z.eqb_spec (m + 1) (Z.of_nat (length bad) + 1)); [lia|done].
  - pose proof (checkConfigFile_scan (terminated good ++ bad)) as Hcheck.
    assert (Hscan : scan (terminated good ++ bad) initial_counters
                    = Return_ERROR InconsistentColumnCount).
    { specialize (Hafter []). rewrite app_nil_r in Hafter.
      rewrite Hafter, scan_end by nia.
      destruct (Z.eqb_spec (m + 1) (Z.of_nat (length bad) + 1)); [lia|done]. }
    by rewrite Hscan in Hcheck.
Qed.

Lemma inconsistent_column_count_rejected_witness :
  checkConfigFile (Some [hash; hash; nl; hash; nl])
  = Return_ERROR InconsistentColumnCount
  ∧ checkConfigFile (Some (terminated [[hash; hash]] ++ [hash] ++ nl :: [dot]))
    = Return_ERROR InconsistentColumnCount
  ∧ checkConfigFile (Some (terminated [[hash; hash]] ++ [hash]))
    = Return_ERROR InconsistentColumnCount.
Proof.
  apply (inconsistent_column_count_rejected [[hash; hash]] [hash] [dot] 2).
  - discriminate.
  - repeat constructor; unfold is_marker, hash; tauto.
  - repeat constructor; unfold is_marker, hash; tauto.
  - simpl. lia.
  - vm_compute. discriminate.
Defined.

(** C5, the code at the failing input: the text "#x\n.#\n" is rejected with
    the invalid character 'x', but the byte 0xFF, which is neither a marker
    nor the terminator, is taken for the end of input: the text
    "#\n#" followed by 0xFF is accepted as a board of 2 rows and 1 column. *)
Theorem byte_0xFF_taken_for_EOF :
  checkConfigFile (Some [hash; "x"%byte; nl; dot; hash; nl])
  = Return_ERROR (InvalidCharacter 120)
  ∧ ¬ is_text_byte xff
  ∧ ∃ f, checkConfigFile (Some [hash; nl; hash; xff]) = Return_OK (f, (2, 1)).
Proof.
  split; [reflexivity|]. split.
  - unfold is_text_byte, is_marker, nl. intros [[?|?]|?]; discriminate.
  - eexists. reflexivity.
Qed.

(** C6, the claim as stated fails: the empty input is not reported as
    [EmptyInput]. *)
Lemma empty_input_not_EmptyInput :
  checkConfigFile (Some []) ≠ Return_ERROR EmptyInput.
Proof. discriminate. Qed.

(** C6, amended: the input of zero characters is rejected, and the message
    is the inconsistent-column one: at the end of input the count 1 of the
    empty final line differs from the unset expected count 0. *)
Theorem empty_input_rejected :
  checkConfigFile (Some []) = Return_ERROR InconsistentColumnCount.
Proof. reflexivity. Qed.




(** C8: one [updateBoard] turns the vertical blinker into the horizontal
    one, a second one turns it back, so two steps are the identity on it. *)
Theorem blinker_period_two :
  updateBoard (board_of_rows blinker_vertical) 3 3
  = Some (board_of_rows blinker_horizontal)
  ∧ updateBoard (board_of_rows blinker_horizontal) 3 3
    = Some (board_of_rows blinker_vertical)
  ∧ steps 2 (board_of_rows blinker_vertical) 3 3
    = Some (board_of_rows blinker_vertical).
Proof. repeat split; reflexivity. Qed.

(** C9: the 2 x 2 board of four alive cells is unchanged by any number of
    steps. *)
Theorem block_still_life n :
  steps n (board_of_rows block) 2 2 = Some (board_of_rows block).
Proof.
  induction n as [|n IH]; [reflexivity|].
  simpl steps.
  replace (updateBoard (board_of_rows block) 2 2)
    with (Some (board_of_rows block)) by reflexivity.
  exact IH.
Qed.

(** C10, the code at the failing input: three lines of 384 dead-markers are
    accepted with height 3 and width 384 mod 256 = 128, and [fillBoard],
    reading rows of 128 characters, stores the first line terminator in the
    cell at row 2, column 126. *)
Theorem wide_text_terminator_in_cell :
  ∃ board, run_load (Some wide_text) = Return_OK (3, 128, board)
    ∧ cell_at board 2 126
      = Some {| current_value := NEWLINE; new_value := NEWLINE |}
    ∧ ¬ valid_board board.
Proof.
  assert (Hrun : match run_load (Some wide_text) with
                 | Return_OK (h, w, board) =>
                     (h =? 3) && (w =? 128)
                     && match cell_at board 2 126 with
                        | Some x => (current_value x =? NEWLINE)
                                    && (new_value x =? NEWLINE)
                        | None => false
                        end
                 | _ => false
                 end = true) by (vm_compute; reflexivity).
  destruct (run_load (Some wide_text)) as [[[h w] board]|e| |]; try done.
  destruct (cell_at board 2 126) as [[cv nv]|] eqn:Hcell;
    [|by rewrite andb_false_r in Hrun].
  simpl in Hrun.
  apply andb_true_iff in Hrun as [Hdims Hvals].
  apply andb_true_iff in Hdims as [->%Z.eqb_eq ->%Z.eqb_eq].
  apply andb_true_iff in Hvals as [->%Z.eqb_eq ->%Z.eqb_eq].
  exists board. split; [done|]. split; [done|].
  intros Hvalid. apply (valid_board_cell _ _ _ _ Hvalid) in Hcell.
  simpl in Hcell. unfold NEWLINE, DOT, HASH in Hcell. lia.
Qed.

(** * Further properties of checkConfigFile *)

(** After complete lines of [m] markers and the markers of a partial line,
    a byte that is neither a marker nor the terminator nor 0xFF is rejected
    as an invalid character, reported as the [char] it converts to. *)
Theorem invalid_character_rejected good partial b rest m :
  Forall (λ l, Forall is_marker l ∧ Z.of_nat (length l) = m) good →
  Forall is_marker partial →
  ¬ is_text_byte b → b ≠ xff →
  Z.of_nat (length (terminated good ++ partial)) + 1 ≤ INT_MAX →
  checkConfigFile (Some (terminated good ++ partial ++ b :: rest))
  = Return_ERROR (InvalidCharacter (char_of_byte b)).
Proof.
  intros Hgood Hpartial Hb Hff Hmax.
  rewrite length_app in Hmax.
  pose proof (checkConfigFile_scan (terminated good ++ partial ++ b :: rest))
    as Hcheck.
  assert (Hscan : scan (terminated good ++ partial ++ b :: rest)
                    initial_counters
                  = Return_ERROR (InvalidCharacter (char_of_byte b))).
  { unfold initial_counters. destruct good as [|l good].
    - simpl. rewrite scan_markers by (done || (simpl in Hmax; lia)).
      simpl scan. rewrite check_char_invalid; [done|done|done|].
      simpl in Hmax. lia.
    - pose proof (length_terminated (l :: good) m Hgood) as Hterm.
      assert (0 ≤ m) by (apply Forall_inv in Hgood as [_ Hm]; lia).
      assert (0 < Z.of_nat (length (l :: good))) by (simpl; lia).
      rewrite (scan_terminated (l :: good) m) by (done || auto || nia).
      rewrite scan_markers by (done || lia).
      simpl scan. rewrite check_char_invalid; [done|done|done|lia]. }
  by rewrite Hscan in Hcheck.
Qed.

Lemma invalid_character_rejected_witness :
  checkConfigFile
    (Some (terminated [[hash; dot]] ++ [dot] ++ "x"%byte :: [nl; dot]))
  = Return_ERROR (InvalidCharacter (char_of_byte "x"%byte)).
Proof.
  apply (invalid_character_rejected [[hash; dot]] [dot] "x"%byte [nl; dot] 2).
  - repeat constructor; unfold is_marker, hash, dot; tauto.
  - repeat constructor; unfold is_marker, dot; tauto.
  - unfold is_text_byte, is_marker, nl. intros [[?|?]|?]; discriminate.
  - discriminate.
  - vm_compute. discriminate.
Defined.

Lemma check_char_invalid_inv b st c :
  check_char (Z.of_N (Byte.to_N b)) st = Fail (InvalidCharacter c) →
  c = char_of_byte b ∧ ¬ is_text_byte b ∧ b ≠ xff.
Proof.
  unfold check_char. fold (char_of_byte b).
  destruct (INT_MAX <? current_column_count st + 1); [done|].
  destruct (char_of_byte b =? NEWLINE) eqn:Hnl.
  { destruct (negb _); [done|]. by destruct (INT_MAX <? row_count st + 1). }
  destruct (char_of_byte b =? EOF) eqn:Heof.
  { by destruct (negb _). }
  destruct (char_of_byte b =? DOT) eqn:Hdot; [done|].
  destruct (char_of_byte b =? HASH) eqn:Hhash; [done|].
  simpl. intros [= <-]. split; [done|]. split.
  - intros [[-> | ->] | ->]; by vm_compute in Hnl, Hdot, Hhash.
  - intros ->. by vm_compute in Heof.
Qed.

Lemma scan_invalid_character bytes st c :
  scan bytes st = Return_ERROR (InvalidCharacter c) →
  ∃ b, b ∈ bytes ∧ c = char_of_byte b ∧ ¬ is_text_byte b ∧ b ≠ xff.
Proof.
  revert st. induction bytes as [|b bytes IH]; intros st Hscan.
  - simpl in Hscan. destruct st as [last col row].
    unfold check_char in Hscan. simpl in Hscan.
    destruct (INT_MAX <? col + 1); [done|].
    change (to_char EOF =? NEWLINE) with false in Hscan.
    change (to_char EOF =? EOF) with true in Hscan. simpl in Hscan.
    by destruct (negb (last =? col + 1)).
  - simpl in Hscan.
    destruct (check_char (Z.of_N (Byte.to_N b)) st) as [st'|st'|e|] eqn:Hch;
      try done.
    + destruct (IH _ Hscan) as (b' & Hin & Hrest).
      exists b'. split; [by apply list_elem_of_further|done].
    + injection Hscan as ->. apply check_char_invalid_inv in Hch.
      exists b. split; [by apply list_elem_of_here|done].
Qed.

(** An invalid-character error always names a byte of the input, converted
    to [char], that is neither a marker nor the terminator nor 0xFF. *)
Theorem invalid_character_sound data c :
  checkConfigFile (Some data) = Return_ERROR (InvalidCharacter c) →
  ∃ b, b ∈ data ∧ c = char_of_byte b ∧ ¬ is_text_byte b ∧ b ≠ xff.
Proof.
  intros Hcheck. pose proof (checkConfigFile_scan data) as Hscan.
  destruct (scan data initial_counters) as [st|e| |] eqn:Hst.
  - destruct (INT_MAX <? row_count st + 1); [congruence|].
    destruct Hscan as (f & Hscan & _). congruence.
  - rewrite Hscan in Hcheck. injection Hcheck as ->.
    by apply scan_invalid_character in Hst.
  - congruence.
  - done.
Qed.

Lemma invalid_character_sound_witness :
  ∃ b, b ∈ [hash; "x"%byte; nl; dot; hash; nl]
       ∧ 120 = char_of_byte b ∧ ¬ is_text_byte b ∧ b ≠ xff.
Proof.
  apply (invalid_character_sound [hash; "x"%byte; nl; dot; hash; nl] 120).
  reflexivity.
Defined.

Lemma scan_defined bytes :
  ∀ st,
    0 ≤ current_column_count st → 0 ≤ row_count st →
    current_column_count st + Z.of_nat (length bytes) + 1 ≤ INT_MAX →
    row_count st + Z.of_nat (length bytes) + 1 ≤ INT_MAX →
    match scan bytes st with
    | Return_OK st' => row_count st' + 1 ≤ INT_MAX
    | Return_ERROR e =>
        e = InconsistentColumnCount ∨ ∃ c, e = InvalidCharacter c
    | Undefined | OutOfFuel => False
    end.
Proof.
  induction bytes as [|b bytes IH]; intros [last col row] Hcol Hrow Hc Hr;
    simpl in Hcol, Hrow, Hc, Hr.
  - rewrite scan_end by lia. destruct (last =? col + 1); simpl; [lia|by left].
  - simpl scan. unfold check_char. fold (char_of_byte b). simpl.
    replace (INT_MAX <? col + 1) with false by (symmetry; apply Z.ltb_ge; lia).
    replace (INT_MAX <? row + 1) with false by (symmetry; apply Z.ltb_ge; lia).
    destruct (char_of_byte b =? NEWLINE).
    { destruct (negb _); [by left|]. apply IH; simpl; lia. }
    destruct (char_of_byte b =? EOF).
    { destruct (negb _); simpl; [by left|lia]. }
    destruct (negb (char_of_byte b =? DOT) && negb (char_of_byte b =? HASH)).
    { right. eauto. }
    apply IH; simpl; lia.
Qed.

(** The loop of [checkConfigFile] ends on every file: for a file shorter
    than [INT_MAX] bytes no counter overflows and the function returns,
    either OK with 8-bit dimensions and the stream still holding the file,
    or one of its two errors. *)
Theorem checkConfigFile_returns data :
  Z.of_nat (length data) + 1 ≤ INT_MAX →
  (∃ f h w, checkConfigFile (Some data) = Return_OK (f, (h, w))
            ∧ contents f = data ∧ 0 ≤ h ≤ 255 ∧ 0 ≤ w ≤ 255)
  ∨ checkConfigFile (Some data) = Return_ERROR InconsistentColumnCount
  ∨ ∃ c, checkConfigFile (Some data) = Return_ERROR (InvalidCharacter c).
Proof.
  intros Hlen. pose proof (checkConfigFile_scan data) as Hcheck.
  pose proof (scan_defined data initial_counters) as Hdef. simpl in Hdef.
  specialize (Hdef ltac:(lia) ltac:(lia) ltac:(lia) ltac:(lia)).
  destruct (scan data initial_counters) as [st|e| |]; [| |done|done].
  - replace (INT_MAX <? row_count st + 1) with false in Hcheck
      by (symmetry; apply Z.ltb_ge; lia).
    destruct Hcheck as (f & Hcheck & Hf). left.
    exists f, (to_uint8 (row_count st + 1)),
      (to_uint8 (last_column_count st - 1)).
    split; [done|]. split; [done|]. split; apply to_uint8_range.
  - right. destruct Hdef as [-> | [c ->]]; [by left|right; eauto].
Qed.

Lemma checkConfigFile_returns_witness :
  (∃ f h w, checkConfigFile (Some wide_text) = Return_OK (f, (h, w))
            ∧ contents f = wide_text ∧ 0 ≤ h ≤ 255 ∧ 0 ≤ w ≤ 255)
  ∨ checkConfigFile (Some wide_text) = Return_ERROR InconsistentColumnCount
  ∨ ∃ c, checkConfigFile (Some wide_text) = Return_ERROR (InvalidCharacter c).
Proof.
  apply (checkConfigFile_returns wide_text).
  vm_compute. discriminate.
Defined.

(** ** The shape of an accepted text *)

Lemma split_lines_cons bytes : ∃ l ls, split_lines bytes = l :: ls.
Proof.
  destruct bytes as [|b bytes]; simpl; [eauto|].
  destruct (Byte.eqb b nl); [eauto|].
  destruct (split_lines bytes); eauto.
Qed.

Lemma separated_split_lines bytes : separated (split_lines bytes) = bytes.
Proof.
  induction bytes as [|b bytes IH]; [done|]. simpl split_lines.
  destruct (split_lines_cons bytes) as (l & ls & Hsplit).
  rewrite Hsplit in IH |- *.
  destruct (Byte.eqb b nl) eqn:Hb.
  - apply byte_dec_bl in Hb as ->.
    change (separated ([] :: l :: ls)) with (nl :: separated (l :: ls)).
    by rewrite IH.
  - rewrite separated_cons in IH |- *.
    change ((b :: l) ++ sep_tail ls) with (b :: (l ++ sep_tail ls)).
    by rewrite IH.
Qed.

Lemma length_split_lines bytes :
  Z.of_nat (length (split_lines bytes)) = count_terminators bytes + 1.
Proof.
  induction bytes as [|b bytes IH]; [done|]. simpl.
  destruct (split_lines_cons bytes) as (l & ls & Hsplit).
  rewrite Hsplit in IH |- *.
  destruct (Byte.eqb b nl); simpl in IH |- *; lia.
Qed.

Lemma split_lines_markers bytes :
  Forall is_text_byte bytes → Forall (Forall is_marker) (split_lines bytes).
Proof.
  induction 1 as [|b bytes Hb _ IH]; [by repeat constructor|]. simpl.
  destruct (split_lines_cons bytes) as (l & ls & Hsplit).
  rewrite Hsplit in IH |- *.
  pose proof (Forall_inv IH) as Hl. pose proof (Forall_inv_tail IH) as Hls.
  destruct Hb as [Hb | ->].
  - replace (Byte.eqb b nl) with false by (by destruct Hb as [-> | ->]).
    constructor; [by constructor|done].
  - change (Byte.eqb nl nl) with true. constructor; [by constructor|done].
Qed.

Lemma split_lines_first bytes :
  ∃ ls, split_lines bytes = first_line bytes :: ls.
Proof.
  induction bytes as [|b bytes [ls IH]]; simpl; [eauto|].
  destruct (Byte.eqb b nl); [eauto|]. rewrite IH. eauto.
Qed.

Lemma split_lines_trailing bytes :
  split_lines (bytes ++ [nl]) = split_lines bytes ++ [[]].
Proof.
  induction bytes as [|b bytes IH]; [done|]. simpl. rewrite IH.
  destruct (Byte.eqb b nl); [done|].
  destruct (split_lines_cons bytes) as (l & ls & ->). done.
Qed.

Lemma scan_uniform bytes :
  Forall is_text_byte bytes →
  ∀ st st', scan bytes st = Return_OK st' →
    0 ≤ current_column_count st →
    ∃ l ls, split_lines bytes = l :: ls
      ∧ current_column_count st + Z.of_nat (length l) + 1
        = last_column_count st'
      ∧ Forall (λ l', Z.of_nat (length l') + 1 = last_column_count st') ls
      ∧ (last_column_count st ≠ 0 →
         last_column_count st' = last_column_count st)
      ∧ (last_column_count st = 0 → ls ≠ []).
Proof.
  induction 1 as [|b bytes Hb _ IH]; intros [last col row] st' Hscan Hcol;
    simpl in Hcol |- *.
  - simpl in Hscan. unfold check_char in Hscan. simpl in Hscan.
    destruct (INT_MAX <? col + 1); [done|].
    change (to_char EOF =? NEWLINE) with false in Hscan.
    change (to_char EOF =? EOF) with true in Hscan. simpl in Hscan.
    destruct (Z.eqb_spec last (col + 1)); simpl in Hscan; [|done].
    injection Hscan as <-. simpl. exists [], [].
    split; [done|]. split; [simpl; lia|]. split; [constructor|].
    split; [done|]. intros ?. lia.
  - simpl in Hscan. destruct Hb as [Hb | ->].
    + destruct (INT_MAX <? col + 1) eqn:Hmax.
      { unfold check_char in Hscan. simpl in Hscan. by rewrite Hmax in Hscan. }
      apply Z.ltb_ge in Hmax.
      rewrite check_char_marker in Hscan by done.
      apply IH in Hscan as (l & ls & Hsplit & Hfirst & Hrest & Hkeep & Hmore);
        [|simpl; lia].
      simpl in *. rewrite Hsplit.
      replace (Byte.eqb b nl) with false by (by destruct Hb as [-> | ->]).
      exists (b :: l), ls. simpl.
      split; [done|]. split; [lia|]. split; [done|]. split; done.
    + change (Byte.eqb nl nl) with true.
      unfold check_char in Hscan. simpl in Hscan.
      destruct (INT_MAX <? col + 1); [done|].
      change (to_char 10 =? NEWLINE) with true in Hscan. simpl in Hscan.
      destruct (Z.eqb_spec (if last =? 0 then col + 1 else last) (col + 1))
        as [Heq|]; simpl in Hscan; [|done].
      destruct (INT_MAX <? row + 1); [done|].
      apply IH in Hscan as (l & ls & Hsplit & Hfirst & Hrest & Hkeep & _);
        [|simpl; lia].
      simpl in *. rewrite Hsplit. exists [], (l :: ls). simpl.
      assert (Hlast : last_column_count st' = col + 1).
      { rewrite Hkeep; destruct (last =? 0); lia. }
      split; [done|]. split; [lia|]. split; [constructor; [lia|done]|].
      split; [|done]. intros Hne. destruct (Z.eqb_spec last 0); lia.
Qed.

(** An accepted text of markers and terminators is two or more lines of one
    common length, separated by the terminator with the last line
    unterminated; the height and width returned are the number of lines and
    the common length, narrowed to 8 bits. *)
Theorem accepted_text_shape data f h w :
  checkConfigFile (Some data) = Return_OK (f, (h, w)) →
  Forall is_text_byte data →
  ∃ lines m,
    data = separated lines
    ∧ lines = split_lines data
    ∧ 2 ≤ Z.of_nat (length lines)
    ∧ Forall (λ l, Forall is_marker l ∧ Z.of_nat (length l) = m) lines
    ∧ h = to_uint8 (Z.of_nat (length lines))
    ∧ w = to_uint8 m.
Proof.
  intros Hcheck Htext.
  pose proof (checkConfigFile_scan data) as Hscan.
  destruct (scan data initial_counters) as [st|e| |] eqn:Hst;
    [|congruence|congruence|done].
  destruct (INT_MAX <? row_count st + 1); [congruence|].
  destruct Hscan as (f' & Hscan & _). rewrite Hscan in Hcheck.
  injection Hcheck as _ <- <-.
  destruct (scan_counts data Htext _ _ Hst) as (Hrow & _); [done|].
  destruct (scan_uniform data Htext _ _ Hst)
    as (l & ls & Hsplit & Hfirst & Hrest & _ & Hmore); [done|].
  simpl in Hrow, Hfirst, Hmore. specialize (Hmore eq_refl).
  pose proof (split_lines_markers data Htext) as Hmark.
  pose proof (length_split_lines data) as Hlen.
  exists (split_lines data), (last_column_count st - 1).
  split; [by rewrite separated_split_lines|]. split; [done|].
  rewrite Hsplit in Hmark, Hlen |- *. split; [|split; [|split]].
  - destruct ls; [done|]. simpl. lia.
  - pose proof (Forall_inv Hmark) as Hl.
    pose proof (Forall_inv_tail Hmark) as Hls.
    constructor; [split; [done|lia]|].
    clear -Hls Hrest. induction Hls as [|l' ls Hl' _ IH]; [done|].
    pose proof (Forall_inv Hrest) as Hlen.
    pose proof (Forall_inv_tail Hrest) as Hrest'. simpl in Hlen.
    constructor; [split; [done|lia]|by apply IH].
  - f_equal. lia.
  - done.
Qed.

Lemma accepted_text_shape_witness :
  ∃ lines m,
    separated blinker_vertical = separated lines
    ∧ lines = split_lines (separated blinker_vertical)
    ∧ 2 ≤ Z.of_nat (length lines)
    ∧ Forall (λ l, Forall is_marker l ∧ Z.of_nat (length l) = m) lines
    ∧ 3 = to_uint8 (Z.of_nat (length lines))
    ∧ 3 = to_uint8 m.
Proof.
  apply (accepted_text_shape (separated blinker_vertical)
           (mkFILE (separated blinker_vertical) [] true) 3 3).
  - reflexivity.
  - repeat constructor; unfold is_text_byte, is_marker, dot, hash, nl; tauto.
Defined.



(** A text of markers and terminators that ends in a terminator and whose
    first line is not empty is rejected with the inconsistent-column
    message: the end of input is counted as one more, empty, line. *)
Theorem trailing_terminator_rejected data :
  Forall is_text_byte data →
  first_line data ≠ [] →
  Z.of_nat (length data) + 2 ≤ INT_MAX →
  checkConfigFile (Some (data ++ [nl]))
  = Return_ERROR InconsistentColumnCount.
Proof.
  intros Htext Hfirst Hlen.
  assert (Htext' : Forall is_text_byte (data ++ [nl])).
  { apply Forall_app. split; [done|]. constructor; [by right|done]. }
  destruct (checkConfigFile_returns (data ++ [nl]))
    as [(f & h & w & Hok & _) | [Herr | [c Herr]]].
  - rewrite length_app. simpl. lia.
  - exfalso.
    destruct (accepted_text_shape _ _ _ _ Hok Htext')
      as (lines & m & _ & -> & _ & Hlines & _).
    rewrite split_lines_trailing in Hlines.
    apply Forall_app in Hlines as [Hhead Hlast].
    apply Forall_inv in Hlast as [_ Hm]. simpl in Hm.
    destruct (split_lines_first data) as [ls Hsplit]. rewrite Hsplit in Hhead.
    apply Forall_inv in Hhead as [_ Hlen0].
    destruct (first_line data); [done|]. simpl in Hlen0. lia.
  - done.
  - exfalso. apply invalid_character_sound in Herr as (b & Hin & _ & Hb & _).
    apply Hb. revert Hin. by apply list.Forall_forall.
Qed.

Lemma trailing_terminator_rejected_witness :
  checkConfigFile (Some ([hash; dot; nl; dot; hash] ++ [nl]))
  = Return_ERROR InconsistentColumnCount.
Proof.
  apply (trailing_terminator_rejected [hash; dot; nl; dot; hash]).
  - repeat constructor; unfold is_text_byte, is_marker, dot, hash, nl; tauto.
  - discriminate.
  - vm_compute. discriminate.
Defined.

(** * Further properties of updateBoard *)

Lemma valid_board_pointwise (board : Board) h w :
  well_shaped board h w →
  (∀ r c, 0 ≤ r < h → 0 ≤ c < w →
     ∃ x, cell_at board r c = Some x
          ∧ (current_value x = DOT ∨ current_value x = HASH)) →
  valid_board board.
Proof.
  intros (_ & _ & Hlen & Hrows) Hcells.
  apply Forall_lookup_2. intros i row Hrow.
  apply Forall_lookup_2. intros j x Hx.
  apply (Forall_lookup_1 _ _ _ _ Hrows) in Hrow as Hl. simpl in Hl.
  apply lookup_lt_Some in Hrow as Hi. apply lookup_lt_Some in Hx as Hj.
  destruct (Hcells (Z.of_nat i) (Z.of_nat j)) as (y & Hy & Hval); [lia|lia|].
  unfold cell_at in Hy.
  replace ((Z.of_nat i <? 0) || (Z.of_nat j <? 0)) with false in Hy
    by (symmetry; apply orb_false_iff; lia).
  rewrite !Nat2Z.id, Hrow in Hy. simpl in Hy. congruence.
Qed.

(** On every board of [h] rows and [w] columns, whatever its cells hold,
    [updateBoard] stays inside the board and returns a board of the same
    shape whose cells all hold one of the two markers, the same in both
    fields. *)
Theorem updateBoard_alphabet board h w :
  well_shaped board h w → h ≤ INT_MAX → w ≤ INT_MAX →
  ∃ board', updateBoard board h w = Some board'
    ∧ well_shaped board' h w
    ∧ valid_board board'
    ∧ ∀ r c, 0 ≤ r < h → 0 ≤ c < w →
        ∃ x, cell_at board' r c = Some x
             ∧ new_value x = current_value x
             ∧ (current_value x = DOT ∨ current_value x = HASH).
Proof.
  intros Hshape Hh Hw.
  destruct (updateBoard_next_value board h w Hshape Hh Hw)
    as (board' & Hupd & Hshape' & Hcells).
  assert (Hpoint : ∀ r c, 0 ≤ r < h → 0 ≤ c < w →
            ∃ x, cell_at board' r c = Some x
                 ∧ new_value x = current_value x
                 ∧ (current_value x = DOT ∨ current_value x = HASH)).
  { intros r c Hr Hc. eexists. split; [by apply Hcells|]. simpl.
    split; [done|]. apply next_value_marker. }
  exists board'. split; [done|]. split; [done|]. split; [|done].
  apply (valid_board_pointwise board' h w Hshape').
  intros r c Hr Hc. destruct (Hpoint r c Hr Hc) as (x & Hx & _ & Hval). eauto.
Qed.

Lemma updateBoard_alphabet_witness :
  ∃ board', updateBoard (calloc_board 2 3) 2 3 = Some board'
    ∧ well_shaped board' 2 3
    ∧ valid_board board'
    ∧ ∀ r c, 0 ≤ r < 2 → 0 ≤ c < 3 →
        ∃ x, cell_at board' r c = Some x
             ∧ new_value x = current_value x
             ∧ (current_value x = DOT ∨ current_value x = HASH).
Proof.
  apply (updateBoard_alphabet (calloc_board 2 3) 2 3).
  - apply well_shaped_calloc; lia.
  - unfold INT_MAX. lia.
  - unfold INT_MAX. lia.
Defined.

(** [updateBoard] reads the current values only: two boards of the same
    shape that agree on every current value have the same update, whatever
    their [new_value] fields hold. *)
Theorem updateBoard_reads_current_only board1 board2 h w :
  well_shaped board1 h w → well_shaped board2 h w →
  h ≤ INT_MAX → w ≤ INT_MAX →
  (∀ r c, 0 ≤ r < h → 0 ≤ c < w →
     current_at board1 r c = current_at board2 r c) →
  updateBoard board1 h w = updateBoard board2 h w
  ∧ is_Some (updateBoard board1 h w).
Proof.
  intros Hs1 Hs2 Hh Hw Hcur.
  destruct (updateBoard_next_value board1 h w Hs1 Hh Hw)
    as (b1 & Hupd1 & Hsh1 & Hcells1).
  destruct (updateBoard_next_value board2 h w Hs2 Hh Hw)
    as (b2 & Hupd2 & Hsh2 & Hcells2).
  rewrite Hupd1, Hupd2. split; [|done]. f_equal.
  apply (board_ext b1 b2 h w Hsh1 Hsh2). intros r c Hr Hc.
  rewrite Hcells1, Hcells2 by done. simpl.
  rewrite (Hcur r c Hr Hc). unfold spec_live_neighbours.
  by rewrite (spec_count_ext board2 board1 h w r c spec_offsets Hcur).
Qed.

Lemma updateBoard_reads_current_only_witness :
  updateBoard (board_of_rows block) 2 2
  = updateBoard [[mkCell HASH 0; mkCell HASH 1]; [mkCell HASH 2; mkCell HASH 3]]
      2 2
  ∧ is_Some (updateBoard (board_of_rows block) 2 2).
Proof.
  apply (updateBoard_reads_current_only (board_of_rows block)
           [[mkCell HASH 0; mkCell HASH 1]; [mkCell HASH 2; mkCell HASH 3]]
           2 2).
  - repeat split; [lia|lia|]. repeat constructor.
  - repeat split; [lia|lia|]. repeat constructor.
  - unfold INT_MAX. lia.
  - unfold INT_MAX. lia.
  - intros r c Hr Hc.
    assert (Hcases : (r = 0 ∨ r = 1) ∧ (c = 0 ∨ c = 1)) by lia.
    destruct Hcases as [[-> | ->] [-> | ->]]; reflexivity.
Defined.

(** The simulation loop never leaves the board: any number of steps from a
    board of [h] rows and [w] columns succeeds and gives a board of the
    same shape, valid after the first step. *)
Theorem steps_stay_on_board n board h w :
  well_shaped board h w → h ≤ INT_MAX → w ≤ INT_MAX →
  ∃ board', steps n board h w = Some board'
    ∧ well_shaped board' h w
    ∧ (0 < n → valid_board board')%nat.
Proof.
  intros Hshape Hh Hw. revert board Hshape.
  induction n as [|n IH]; intros board Hshape.
  - exists board. split; [done|]. split; [done|]. lia.
  - destruct (updateBoard_alphabet board h w Hshape Hh Hw)
      as (board1 & Hupd & Hshape1 & Hvalid1 & _).
    destruct (IH board1 Hshape1) as (board' & Hsteps & Hshape' & Hvalid').
    exists board'. simpl. rewrite Hupd. simpl.
    split; [done|]. split; [done|]. intros _.
    destruct n as [|n]; [|apply Hvalid'; lia].
    simpl in Hsteps. by injection Hsteps as <-.
Qed.

Lemma steps_stay_on_board_witness :
  ∃ board', steps 5 (board_of_rows blinker_vertical) 3 3 = Some board'
    ∧ well_shaped board' 3 3
    ∧ (0 < 5 → valid_board board')%nat.
Proof.
  apply (steps_stay_on_board 5 (board_of_rows blinker_vertical) 3 3).
  - repeat split; [lia|lia|]. repeat constructor.
  - unfold INT_MAX. lia.
  - unfold INT_MAX. lia.
Defined.

Lemma cell_at_dead_board h w r c :
  0 ≤ r < h → 0 ≤ c < w →
  cell_at (dead_board h w) r c
  = Some {| current_value := DOT; new_value := DOT |}.
Proof.
  intros Hr Hc. unfold cell_at, dead_board.
  replace ((r <? 0) || (c <? 0)) with false by (symmetry; apply orb_false_iff; lia).
  rewrite lookup_replicate_2 by lia. simpl.
  by rewrite lookup_replicate_2 by lia.
Qed.

Lemma well_shaped_dead_board h w :
  0 ≤ h → 0 ≤ w → well_shaped (dead_board h w) h w.
Proof.
  intros Hh Hw. unfold dead_board. repeat split; [done|done| |].
  - by rewrite length_replicate.
  - apply Forall_replicate. by rewrite length_replicate.
Qed.

Lemma spec_count_no_alive board h w r c os :
  (∀ r' c', 0 ≤ r' < h → 0 ≤ c' < w → current_at board r' c' ≠ HASH) →
  spec_count board h w r c os = 0.
Proof.
  intros Hdead. induction os as [|o os IH]; [done|]. simpl. rewrite IH.
  unfold spec_counted.
  destruct (spec_inside h w (r + o.1) (c + o.2)) eqn:Hin; [|done].
  unfold spec_alive.
  destruct (Z.eqb_spec (current_at board (r + o.1) (c + o.2)) HASH) as [Heq|];
    [|done].
  exfalso. revert Heq. apply Hdead; unfold spec_inside in Hin; lia.
Qed.

(** The board of dead cells, of any size, is a fixed point of
    [updateBoard]: nothing is born without live neighbours. *)
Theorem dead_board_fixed_point h w :
  0 ≤ h ≤ INT_MAX → 0 ≤ w ≤ INT_MAX →
  updateBoard (dead_board h w) h w = Some (dead_board h w).
Proof.
  intros Hh Hw.
  pose proof (well_shaped_dead_board h w ltac:(lia) ltac:(lia)) as Hshape.
  destruct (updateBoard_next_value (dead_board h w) h w Hshape)
    as (board' & Hupd & Hshape' & Hcells); [lia|lia|].
  rewrite Hupd. f_equal.
  apply (board_ext board' (dead_board h w) h w Hshape' Hshape).
  intros r c Hr Hc. rewrite Hcells, cell_at_dead_board by done. simpl.
  unfold spec_live_neighbours. rewrite spec_count_no_alive.
  - unfold current_at. by rewrite cell_at_dead_board.
  - intros r' c' Hr' Hc'. unfold current_at.
    by rewrite cell_at_dead_board.
Qed.

Lemma dead_board_fixed_point_witness :
  updateBoard (dead_board 4 7) 4 7 = Some (dead_board 4 7).
Proof.
  apply (dead_board_fixed_point 4 7); unfold INT_MAX; lia.
Defined.

(** * Further properties of fillBoard *)

Lemma fgetc_at data f k :
  unread f = drop k data →
  to_char (fgetc f).1 = file_char data (Z.of_nat k)
  ∧ unread (fgetc f).2 = drop (S k) data
  ∧ contents (fgetc f).2 = contents f.
Proof.
  intros Hun. unfold file_char, fgetc. rewrite Nat2Z.id.
  destruct (data !! k) as [b|] eqn:Hb.
  - rewrite (drop_S _ _ _ Hb) in Hun. rewrite Hun. done.
  - apply lookup_ge_None_1 in Hb.
    rewrite drop_ge in Hun by done. rewrite Hun. simpl.
    by rewrite drop_ge by lia.
Qed.

Section FillAnyFile.
Variables (data : list byte) (h w : Z).
Hypothesis Hh0 : 0 ≤ h.
Hypothesis Hw0 : 0 ≤ w.

Lemma fill_cell_pos i j s :
  0 ≤ i < h → 0 ≤ j < w →
  fill_pos_inv data h w i j s →
  ∃ s', fill_cell i j s = Some s' ∧ fill_pos_inv data h w i (j + 1) s'.
Proof.
  intros Hi Hj. destruct s as [f board].
  intros (Hsh & Hdata & Hun & Hcells). simpl in *.
  destruct (fgetc_at data f _ Hun) as (Hch & Hun' & Hdata').
  rewrite Z2Nat.id in Hch by nia.
  set (v := file_char data (i * (w + 1) + j)) in *.
  destruct (set_current_value_in_range board h w Hsh i j v Hi Hj)
    as (x & board1 & Hx & Hset1 & Hsh1 & Hnew1 & Hother1).
  destruct (set_new_value_in_range board1 h w Hsh1 i j v Hi Hj)
    as (x1 & board2 & Hx1 & Hset2 & Hsh2 & Hnew2 & Hother2).
  rewrite Hnew1 in Hx1. injection Hx1 as <-. simpl in Hnew2.
  exists ((fgetc f).2, board2). split.
  - unfold fill_cell. simpl. destruct (fgetc f) as [ch f'] eqn:Hget.
    simpl in Hch. rewrite Hch, Hset1. simpl. by rewrite Hset2.
  - split; [done|]. split; [simpl; by rewrite Hdata'|]. split; simpl.
    + rewrite Hun'. f_equal. nia.
    + intros r c Hr Hc Hbefore.
      destruct (decide ((r, c) = (i, j))) as [[= -> ->]|Hne]; [done|].
      rewrite (Hother2 r c Hne), (Hother1 r c Hne).
      apply Hcells; [done|done|]. by apply computed_before_next.
Qed.

Lemma fill_row_pos i s :
  0 ≤ i < h →
  fill_pos_inv data h w i 0 s →
  ∃ s', fill_row w i s = Some s' ∧ fill_pos_inv data h w (i + 1) 0 s'.
Proof.
  intros Hi Hinv.
  destruct (for_loop_inv (λ j, fill_pos_inv data h w i j)
              (fill_cell i) w s Hw0 Hinv)
    as (s1 & Hloop & Hsh1 & Hdata1 & Hun1 & Hcells1).
  { intros j t Hj. by apply fill_cell_pos. }
  destruct (fgetc_at data s1.1 _ Hun1) as (_ & Hun' & Hdata').
  exists ((fgetc s1.1).2, s1.2). split.
  { unfold fill_row. rewrite Hloop. simpl. by destruct (fgetc s1.1). }
  split; [done|]. split; [simpl; by rewrite Hdata'|]. split; simpl.
  - rewrite Hun'. f_equal. nia.
  - intros r c Hr Hc Hbefore. apply Hcells1; [done|done|].
    apply computed_before_row; [lia|done].
Qed.

(** [fillBoard] never fails and never leaves the board: on every stream and
    all dimensions it returns a board of [h] rows and [w] columns whose cell
    [(r, c)] holds, in both fields, the character at offset
    [r * (w + 1) + c] of the file, or [EOF] as a [char] past its end. *)
Theorem fillBoard_cells f :
  contents f = data →
  ∃ f' board, fillBoard f h w = Some (f', board)
    ∧ contents f' = data
    ∧ well_shaped board h w
    ∧ ∀ r c, 0 ≤ r < h → 0 ≤ c < w →
        cell_at board r c
        = Some {| current_value := file_char data (r * (w + 1) + c);
                  new_value := file_char data (r * (w + 1) + c) |}.
Proof.
  intros Hdata. unfold fillBoard.
  destruct (for_loop_inv (λ i, fill_pos_inv data h w i 0)
              (fill_row w) h (rewind f, calloc_board h w) Hh0)
    as ([f' board] & Hloop & Hsh & Hdata' & _ & Hcells).
  - split; [by apply well_shaped_calloc|]. split; [done|].
    split; [by rewrite <- Hdata|]. unfold computed_before. intros; lia.
  - intros i t Hi. by apply fill_row_pos.
  - exists f', board. split; [done|]. split; [done|]. split; [done|].
    intros r c Hr Hc. apply Hcells; [done|done|].
    unfold computed_before. lia.
Qed.
End FillAnyFile.

Lemma fillBoard_cells_witness :
  ∃ f' board, fillBoard (fopen [hash; nl]) 2 1 = Some (f', board)
    ∧ contents f' = [hash; nl]
    ∧ well_shaped board 2 1
    ∧ ∀ r c, 0 ≤ r < 2 → 0 ≤ c < 1 →
        cell_at board r c
        = Some {| current_value := file_char [hash; nl] (r * (1 + 1) + c);
                  new_value := file_char [hash; nl] (r * (1 + 1) + c) |}.
Proof.
  apply (fillBoard_cells [hash; nl] 2 1); [lia|lia|reflexivity].
Defined.

(** * checkParams *)

(** [checkParams] returns OK exactly for a lone program name, with the path
    default.txt, and for a program name followed by -f and a path, with
    that path; every other argument vector prints the usage prompt, and
    nothing else, and returns ERROR. *)
Theorem checkParams_accepts argv :
  (∀ path,
     (∃ out, checkParams argv = (out, Some path))
     ↔ (∃ prog, argv = [prog] ∧ path = DEFAULT_CONFIG_PATH)
       ∨ (∃ prog, argv = [prog; "-f"; path]))
  ∧ (∀ out, checkParams argv = (out, None) → out = [printf USAGE_PROMPT []]).
Proof.
  split.
  - intros path. split.
    + intros [out Hcheck]. unfold checkParams in Hcheck.
      destruct (Z.eqb_spec (Z.of_nat (length argv)) 1) as [H1|_].
      { left. destruct argv as [|prog [|a1 argv]]; simpl in H1; try lia.
        injection Hcheck as _ <-. eauto. }
      destruct (Z.eqb_spec (Z.of_nat (length argv)) 3) as [H3|_]; [|done].
      right.
      destruct argv as [|prog [|a1 [|a2 [|a3 argv]]]]; simpl in H3; try lia.
      simpl in Hcheck.
      destruct (String.eqb_spec a1 "-f") as [->|]; [|done].
      injection Hcheck as _ <-. eauto.
    + intros [[prog [-> ->]] | [prog ->]].
      * eexists. reflexivity.
      * eexists. reflexivity.
  - intros out Hcheck. unfold checkParams in Hcheck.
    destruct (Z.of_nat (length argv) =? 1); [done|].
    destruct (Z.of_nat (length argv) =? 3); [|by injection Hcheck as <-].
    destruct (String.eqb _ _); [done|by injection Hcheck as <-].
Qed.

(** * printBoard *)

Lemma print_border_replicate w out :
  0 ≤ w ≤ 255 →
  print_border w out
  = Some (out ++ replicate (Z.to_nat w) (printf "═" [])).
Proof.
  intros Hw. unfold print_border, uint8_for.
  replace (255 <? w) with false by (symmetry; apply Z.ltb_ge; lia).
  destruct (for_loop_inv
              (λ j o, o = out ++ replicate (Z.to_nat j) (printf "═" []))
              (λ _ o, Some (o ++ [printf "═" []])) w out)
    as (out' & Hloop & Hout).
  - lia.
  - simpl. by rewrite app_nil_r.
  - intros j t Hj ->. eexists. split; [done|].
    replace (Z.to_nat (j + 1)) with (S (Z.to_nat j)) by lia.
    by rewrite replicate_S_end, app_assoc.
  - by rewrite Hloop, Hout.
Qed.

Lemma print_cell_glyphs board row column out x :
  cell_at board row column = Some x →
  print_cell board row column out = Some (out ++ glyphs x).
Proof.
  intros Hx. unfold print_cell, glyphs. rewrite Hx. simpl.
  destruct (current_value x =? HASH), (current_value x =? DOT); simpl;
    by rewrite <- ?app_assoc, ?app_nil_r.
Qed.

Lemma cell_at_lookup (board : Board) r c cells x :
  board !! r = Some cells → cells !! c = Some x →
  cell_at board (Z.of_nat r) (Z.of_nat c) = Some x.
Proof.
  intros Hrow Hx. unfold cell_at.
  replace ((Z.of_nat r <? 0) || (Z.of_nat c <? 0)) with false
    by (symmetry; apply orb_false_iff; split; apply Z.ltb_ge; lia).
  rewrite !Nat2Z.id, Hrow. simpl. done.
Qed.

Section Print.
Variables (board : Board) (h w : Z).
Hypothesis Hshape : well_shaped board h w.
Hypothesis Hh : h ≤ 255.
Hypothesis Hw : w ≤ 255.

Lemma print_row_render i cells out :
  0 ≤ i → board !! Z.to_nat i = Some cells →
  print_row board w i out = Some (out ++ render_row cells).
Proof.
  intros Hi Hcells. destruct Hshape as (_ & Hw0 & _ & Hrows).
  apply (Forall_lookup_1 _ _ _ _ Hrows) in Hcells as Hlen. simpl in Hlen.
  unfold print_row, uint8_for.
  replace (255 <? w) with false by (symmetry; apply Z.ltb_ge; lia).
  destruct (for_loop_inv
              (λ j o, o = (out ++ [printf "║" []])
                          ++ concat (glyphs <$> take (Z.to_nat j) cells))
              (print_cell board i) w (out ++ [printf "║" []]))
    as (out' & Hloop & Hout).
  - lia.
  - simpl. by rewrite app_nil_r.
  - intros j t Hj ->.
    destruct (lookup_lt_is_Some_2 cells (Z.to_nat j)) as [x Hx]; [lia|].
    eexists. split.
    + apply print_cell_glyphs.
      rewrite <- (Z2Nat.id i), <- (Z2Nat.id j) by lia.
      by apply (cell_at_lookup board _ _ cells).
    + replace (Z.to_nat (j + 1)) with (S (Z.to_nat j)) by lia.
      rewrite (take_S_r _ _ _ Hx), fmap_app, concat_app. simpl.
      by rewrite app_nil_r, app_assoc.
  - rewrite Hloop, Hout. simpl. rewrite take_ge by lia. unfold render_row.
    by rewrite <- !app_assoc.
Qed.

Lemma print_rows_render out :
  uint8_for h (print_row board w) out
  = Some (out ++ concat (render_row <$> board)).
Proof.
  destruct Hshape as (Hh0 & _ & Hlen & _). unfold uint8_for.
  replace (255 <? h) with false by (symmetry; apply Z.ltb_ge; lia).
  destruct (for_loop_inv
              (λ i o, o = out ++ concat (render_row <$> take (Z.to_nat i) board))
              (print_row board w) h out)
    as (out' & Hloop & Hout).
  - lia.
  - simpl. by rewrite app_nil_r.
  - intros i t Hi ->.
    destruct (lookup_lt_is_Some_2 board (Z.to_nat i)) as [cells Hcells]; [lia|].
    eexists. split; [apply print_row_render; [lia|done]|].
    replace (Z.to_nat (i + 1)) with (S (Z.to_nat i)) by lia.
    rewrite (take_S_r _ _ _ Hcells), fmap_app, concat_app. simpl.
    by rewrite app_nil_r, app_assoc.
  - rewrite Hloop, Hout. by rewrite take_ge by lia.
Qed.

(** On a board of [h ≤ 255] rows and [w ≤ 255] columns [printBoard] ends,
    stays inside the board and appends to the output the top border, one
    line per row with a glyph for each cell that holds a marker (nothing for
    any other cell) between two bars, and the bottom border. *)
Theorem printBoard_render out :
  printBoard board h w out = Some (out ++ render board w).
Proof.
  pose proof Hshape as (_ & Hw0 & _).
  unfold printBoard, render.
  rewrite print_border_replicate by lia. simpl.
  rewrite print_rows_render. simpl.
  rewrite print_border_replicate by lia. simpl.
  by rewrite <- !app_assoc.
Qed.
End Print.

Lemma printBoard_render_witness :
  printBoard (board_of_rows blinker_vertical) 3 3 []
  = Some ([] ++ render (board_of_rows blinker_vertical) 3).
Proof.
  apply (printBoard_render (board_of_rows blinker_vertical) 3 3).
  - repeat split; [lia|lia|]. repeat constructor.
  - lia.
  - lia.
Defined.

Lemma glyphs_valid x :
  current_value x = DOT ∨ current_value x = HASH → length (glyphs x) = 1%nat.
Proof. unfold glyphs. by intros [-> | ->]. Qed.

(** On a valid board every row is printed with exactly one glyph per cell:
    the output has [w + 2] calls for each row, [w + 1] for the top border
    and [w + 2] for the bottom border. *)
Theorem render_valid_length board h w :
  well_shaped board h w → valid_board board →
  Z.of_nat (length (render board w)) = (w + 1) + h * (w + 2) + (w + 2).
Proof.
  intros (Hh0 & Hw0 & Hlen & Hrows) Hvalid. unfold render.
  rewrite !length_app, !length_replicate.
  assert (Hbody : Z.of_nat (length (concat (render_row <$> board)))
                  = Z.of_nat (length board) * (w + 2)).
  { clear Hlen. induction board as [|cells rest IH]; [done|].
    pose proof (Forall_inv Hrows) as Hl. simpl in Hl.
    pose proof (Forall_inv Hvalid) as Hcells.
    specialize (IH (Forall_inv_tail Hrows) (Forall_inv_tail Hvalid)).
    rewrite fmap_cons. change (concat (?x :: ?l)) with (x ++ concat l).
    rewrite length_app, Nat2Z.inj_add, IH.
    unfold render_row. rewrite !length_app.
    assert (Hg : length (concat (glyphs <$> cells)) = length cells).
    { clear -Hcells. induction Hcells as [|x cells Hx _ IHc]; [done|].
      rewrite fmap_cons. change (concat (?y :: ?l)) with (y ++ concat l).
      rewrite length_app, IHc. by rewrite glyphs_valid. }
    rewrite Hg. simpl length. lia. }
  rewrite !Nat2Z.inj_add, Hbody. simpl length. lia.
Qed.

Lemma render_valid_length_witness :
  Z.of_nat (length (render (board_of_rows block) 2))
  = (2 + 1) + 2 * (2 + 2) + (2 + 2).
Proof.
  apply (render_valid_length (board_of_rows block) 2 2).
  - repeat split; [lia|lia|]. repeat constructor.
  - repeat constructor; vm_compute; tauto.
Defined.

(** * run *)

Lemma steps_last n board h w :
  steps (S n) board h w
  = (board' ← steps n board h w; updateBoard board' h w).
Proof.
  revert board. induction n as [|n IH]; intros board.
  - simpl. by destruct (updateBoard board h w).
  - change (steps (S (S n)) board h w)
      with (b ← updateBoard board h w; steps (S n) b h w).
    change (steps (S n) board h w)
      with (b ← updateBoard board h w; steps n b h w).
    destruct (updateBoard board h w) as [b|]; [|done]. simpl. apply IH.
Qed.

Lemma to_size_t_succ x : to_size_t (to_size_t x + 1) = to_size_t (x + 1).
Proof. unfold to_size_t. by rewrite Zplus_mod_idemp_l. Qed.

(** One round from a board of 8-bit dimensions prints the step and the
    rendered board, and goes on with the updated board. *)
Lemma run_round_simulating out board h w step :
  well_shaped board h w → h ≤ 255 → w ≤ 255 →
  ∃ board', updateBoard board h w = Some board'
    ∧ well_shaped board' h w
    ∧ run_round (Simulating out board h w step)
      = Simulating
          (out ++ [printf ("Step: %zu" +:+ LF +:+ "╔") [ArgInt step]]
               ++ render board w)
          board' h w (to_size_t (step + 1)).
Proof.
  intros Hshape Hh Hw.
  destruct (updateBoard_alphabet board h w Hshape)
    as (board' & Hupd & Hshape' & _); [unfold INT_MAX; lia..|].
  exists board'. split; [done|]. split; [done|].
  unfold run_round.
  rewrite (printBoard_render board h w Hshape Hh Hw), Hupd.
  by rewrite <- app_assoc.
Qed.

Lemma run_rounds n out board h w :
  well_shaped board h w → h ≤ 255 → w ≤ 255 →
  ∃ out' board',
    Nat.iter n run_round (Simulating out board h w 0)
    = Simulating out' board' h w (to_size_t (Z.of_nat n))
    ∧ steps n board h w = Some board'
    ∧ well_shaped board' h w.
Proof.
  intros Hshape Hh Hw. induction n as [|n (out' & board' & Hiter & Hsteps & Hsh)].
  - exists out, board. split; [reflexivity|]. split; done.
  - destruct (run_round_simulating out' board' h w (to_size_t (Z.of_nat n))
                Hsh Hh Hw) as (board'' & Hupd & Hsh' & Hround).
    eexists _, board''. split; [|split; [|done]].
    + simpl. rewrite Hiter, Hround, to_size_t_succ.
      do 2 f_equal. lia.
    + rewrite steps_last, Hsteps. done.
Qed.

(** [run] never leaves the defined behaviour of C when the files are
    shorter than [INT_MAX] bytes.  Either it returns ERROR before the
    simulation starts, whatever the number of rounds asked for, or it
    completes every number of rounds: after [n] rounds the board is the
    [n]-th generation of the board it loaded, of the same 8-bit dimensions,
    and the step counter is [n]. *)
Theorem run_defined argv fs n :
  (∀ path data, fs path = Some data → Z.of_nat (length data) + 1 ≤ INT_MAX) →
  match run argv fs n with
  | Run_undefined => False
  | Returned_ERROR out => run argv fs 0 = Returned_ERROR out
  | Simulating out board h w step =>
      ∃ out0 board0,
        run argv fs 0 = Simulating out0 board0 h w 0
        ∧ steps n board0 h w = Some board
        ∧ well_shaped board h w
        ∧ 0 ≤ h ≤ 255 ∧ 0 ≤ w ≤ 255
        ∧ step = to_size_t (Z.of_nat n)
  end.
Proof.
  intros Hfs. unfold run.
  destruct (checkParams argv) as [out [path|]]; [|done].
  destruct (fs path) as [data|] eqn:Hpath; [|done].
  destruct (checkConfigFile_returns data (Hfs _ _ Hpath))
    as [(f & h & w & -> & Hf & Hh & Hw) | [-> | [c ->]]]; [|done|done].
  destruct (fillBoard_cells data h w ltac:(lia) ltac:(lia) f Hf)
    as (f' & board & -> & _ & Hshape & _).
  simpl checkConfigFile_output.
  destruct (run_rounds n
              (out ++ [printf ("-> Info: Rows = %d, Columns = %d" +:+ LF)
                         [ArgInt h; ArgInt w]]
                   ++ [printf (LF +:+ "============ GOL - Game Of Life ============" +:+ LF) []])
              board h w Hshape)
    as (out' & board' & Hiter & Hsteps & Hshape'); [lia|lia|].
  rewrite <- app_assoc, Hiter. simpl Nat.iter.
  eexists _, board. split; [reflexivity|]. split; [done|]. split; [done|].
  split; [lia|]. split; [lia|done].
Qed.

Lemma run_defined_witness :
  match run ["gol"; "-f"; "blinker.txt"]
          (λ _, Some (separated blinker_vertical)) 2 with
  | Run_undefined => False
  | Returned_ERROR out =>
      run ["gol"; "-f"; "blinker.txt"]
        (λ _, Some (separated blinker_vertical)) 0
      = Returned_ERROR out
  | Simulating out board h w step =>
      ∃ out0 board0,
        run ["gol"; "-f"; "blinker.txt"]
          (λ _, Some (separated blinker_vertical)) 0
        = Simulating out0 board0 h w 0
        ∧ steps 2 board0 h w = Some board
        ∧ well_shaped board h w
        ∧ 0 ≤ h ≤ 255 ∧ 0 ≤ w ≤ 255
        ∧ step = to_size_t (Z.of_nat 2)
  end.
Proof.
  apply (run_defined ["gol"; "-f"; "blinker.txt"]
           (λ _, Some (separated blinker_vertical)) 2).
  intros path data [= <-]. vm_compute. discriminate.
Defined.

(** A missing or rejected configuration file makes [run] return ERROR
    after the message of [checkConfigFile], without any board printed, for
    every number of rounds. *)
Theorem run_rejected argv fs n out path e :
  checkParams argv = (out, Some path) →
  checkConfigFile (fs path) = Return_ERROR e →
  run argv fs n
  = Returned_ERROR
      (out ++ checkConfigFile_output path (Return_ERROR e))
  ∧ length (checkConfigFile_output path (Return_ERROR e)) = 1%nat
  ∧ e ≠ EmptyInput.
Proof.
  intros Hparams Hcheck. unfold run. rewrite Hparams, Hcheck.
  split; [done|].
  destruct e as [| |c|]; try (split; done).
  exfalso. destruct (fs path) as [data|]; [|done].
  pose proof (checkConfigFile_scan data) as Hscan.
  assert (Hchar : ∀ ch st, check_char ch st ≠ Fail EmptyInput).
  { clear. intros ch st. unfold check_char. repeat case_match; done. }
  assert (Hnever : ∀ bytes st, scan bytes st ≠ Return_ERROR EmptyInput).
  { clear -Hchar. induction bytes as [|b bytes IH]; intros st; simpl.
    - destruct (check_char EOF st) eqn:Hc; try done.
      intros [= ->]. by apply Hchar in Hc.
    - destruct (check_char (Z.of_N (Byte.to_N b)) st) eqn:Hc; try done.
      intros [= ->]. by apply Hchar in Hc. }
  destruct (scan data initial_counters) as [st|e'| |] eqn:Hst.
  - destruct (INT_MAX <? row_count st + 1); [congruence|].
    destruct Hscan as (f & Hscan & _). congruence.
  - rewrite Hscan in Hcheck. injection Hcheck as ->. by apply Hnever in Hst.
  - congruence.
  - done.
Qed.

Lemma run_rejected_witness :
  run ["gol"] (λ _, None) 7
  = Returned_ERROR
      ([printf INFO_DEFAULT_FILE [ArgString DEFAULT_CONFIG_PATH]]
       ++ checkConfigFile_output DEFAULT_CONFIG_PATH
            (Return_ERROR FileNotFound))
  ∧ length (checkConfigFile_output DEFAULT_CONFIG_PATH
              (Return_ERROR FileNotFound)) = 1%nat
  ∧ FileNotFound ≠ EmptyInput.
Proof.
  apply (run_rejected ["gol"] (λ _, None) 7
           [printf INFO_DEFAULT_FILE [ArgString DEFAULT_CONFIG_PATH]]
           DEFAULT_CONFIG_PATH FileNotFound).
  - reflexivity.
  - reflexivity.
Defined.

Lemma run_next argv fs n :
  run argv fs (S n) = run_round (run argv fs n).
Proof.
  unfold run. destruct (checkParams argv) as [out [path|]]; [|done].
  destruct (checkConfigFile (fs path)) as [[f [h w]]|e| |]; try done.
  by destruct (fillBoard f h w) as [[f' board]|].
Qed.

(** Each round of the simulation prints the step counter and then the
    rendering of the current generation, and goes on with its update: the
    output after [n + 1] rounds is the output after [n] rounds followed by
    the step line and the board reached after [n] rounds. *)
Theorem run_prints_generation argv fs n out board h w step :
  (∀ path data, fs path = Some data → Z.of_nat (length data) + 1 ≤ INT_MAX) →
  run argv fs n = Simulating out board h w step →
  ∃ board',
    updateBoard board h w = Some board'
    ∧ run argv fs (S n)
      = Simulating
          (out ++ [printf ("Step: %zu" +:+ LF +:+ "╔") [ArgInt step]]
               ++ render board w)
          board' h w (to_size_t (step + 1)).
Proof.
  intros Hfs Hrun. pose proof (run_defined argv fs n Hfs) as Hdef.
  rewrite Hrun in Hdef.
  destruct Hdef as (_ & _ & _ & _ & Hshape & Hh & Hw & _).
  destruct (run_round_simulating out board h w step Hshape)
    as (board' & Hupd & _ & Hround); [lia|lia|].
  exists board'. split; [done|]. by rewrite run_next, Hrun.
Qed.

Lemma run_prints_generation_witness :
  ∃ board',
    updateBoard (board_of_rows blinker_vertical) 3 3 = Some board'
    ∧ run ["gol"] (λ _, Some (separated blinker_vertical)) 1
      = Simulating
          (([printf INFO_DEFAULT_FILE [ArgString DEFAULT_CONFIG_PATH]]
            ++ [printf ("-> Info: Rows = %d, Columns = %d" +:+ LF)
                  [ArgInt 3; ArgInt 3]]
            ++ [printf (LF +:+ "============ GOL - Game Of Life ============"
                        +:+ LF) []])
           ++ [printf ("Step: %zu" +:+ LF +:+ "╔") [ArgInt 0]]
           ++ render (board_of_rows blinker_vertical) 3)
          board' 3 3 (to_size_t (0 + 1)).
Proof.
  apply (run_prints_generation ["gol"]
           (λ _, Some (separated blinker_vertical)) 0).
  - intros path data [= <-]. vm_compute. discriminate.
  - reflexivity.
Defined.

(** On a valid board of 8-bit dimensions [printBoard] makes exactly
    [w + 1] calls for the top border, [w + 2] for each row (a bar, one glyph
    per cell, a bar) and [w + 2] for the bottom border. *)
Theorem printBoard_valid_length board h w out :
  well_shaped board h w → h ≤ 255 → w ≤ 255 → valid_board board →
  ∃ out', printBoard board h w out = Some out'
    ∧ Z.of_nat (length out')
      = Z.of_nat (length out) + (w + 1) + h * (w + 2) + (w + 2).
Proof.
  intros Hshape Hh Hw Hvalid. eexists. split.
  - by apply printBoard_render.
  - rewrite length_app, Nat2Z.inj_add.
    rewrite (render_valid_length board h w Hshape Hvalid). lia.
Qed.

Lemma printBoard_valid_length_witness :
  ∃ out', printBoard (board_of_rows blinker_horizontal) 3 3 [] = Some out'
    ∧ Z.of_nat (length out')
      = Z.of_nat (length (@nil Printf)) + (3 + 1) + 3 * (3 + 2) + (3 + 2).
Proof.
  apply (printBoard_valid_length (board_of_rows blinker_horizontal) 3 3 []).
  - repeat split; [lia|lia|]. repeat constructor.
  - lia.
  - lia.
  - repeat constructor; vm_compute; tauto.
Defined.
